(** * Open Graph image generation ([.vitepress/generateOg.mts])

    A shallow embedding of [genOg]: the title is trimmed, split with the
    regular expression [/(.{0,30})(?:\s|$)/g], the first three non-empty
    pieces are put into the SVG template in place of its [{{name}}] markers,
    and the document is handed to the rasteriser, whose failure is logged.

    JavaScript strings are sequences of UTF-16 code units; a code unit is a
    number here, and a string a list of them. *)

From Stdlib Require Import NArith Ascii String List Lia Bool.
From stdpp Require Import base option list gmap.

Open Scope N_scope.

(** ** Strings *)

Abbreviation char := N.
Abbreviation str := (list N).

(** The code units of an ASCII literal. *)
Definition u (s : string) : str := map N_of_ascii (list_ascii_of_string s).

(** ECMAScript [LineTerminator]: LF, CR, LS, PS.  The pattern character [.]
    (without the [s] flag) matches every code unit but these. *)
Definition is_line_terminator (c : char) : bool :=
  (c =? 10) || (c =? 13) || (c =? 8232) || (c =? 8233).

(** ECMAScript [WhiteSpace] or [LineTerminator]: the class [\s], and what
    [String.prototype.trim] strips. *)
Definition is_space (c : char) : bool :=
  (c =? 9) || (c =? 11) || (c =? 12) || (c =? 32) || (c =? 160)
  || (c =? 5760) || ((8192 <=? c) && (c <=? 8202))
  || (c =? 8239) || (c =? 8287) || (c =? 12288) || (c =? 65279)
  || is_line_terminator c.

Definition is_dot (c : char) : bool := negb (is_line_terminator c).

(** [String.prototype.trim]. *)
Fixpoint trim_start (s : str) : str :=
  match s with
  | c :: s' => if is_space c then trim_start s' else s
  | [] => []
  end.

Definition trim_end (s : str) : str := rev (trim_start (rev s)).

Definition trim (s : str) : str := trim_end (trim_start s).

(** ** The separator pattern [/(.{0,30})(?:\s|$)/]

    [sep_tail] is the non-capturing group [(?:\s|$)] tried at the head of
    [s]: first one white-space code unit, otherwise the end of the input.
    [sep_match n] is the whole pattern matched (sticky) at the head of [s]
    with the quantifier [{0,n}]: the quantifier is greedy, so one more [.] is
    tried first and the group is tried in place only when that fails.  The
    result is the capture and the input left after the match. *)

Definition sep_tail (s : str) : option (str * str) :=
  match s with
  | [] => Some ([], [])
  | c :: s' => if is_space c then Some ([], s') else None
  end.

Fixpoint sep_match (n : nat) (s : str) : option (str * str) :=
  match n, s with
  | S n', c :: s' =>
      if is_dot c then
        match sep_match n' s' with
        | Some (cap, rest) => Some (c :: cap, rest)
        | None => sep_tail s
        end
      else sep_tail s
  | _, _ => sep_tail s
  end.

(** ** [String.prototype.split] with that pattern

    The loop of [RegExp.prototype[Symbol.split]].  [s] is the input from
    index [q] on, [pending] holds the code units between [p] and [q]
    (latest first), and [skip] counts the code units of a match still to be
    stepped over, which is how [q] jumps to the end [e] of a match.  At each
    [q] the pattern is matched sticky:
    - no match: [q] advances by one;
    - a match ending at [e = p] (an empty match with nothing pending): [q]
      advances by one;
    - otherwise the substring from [p] to [q] and then the capture are
      pushed, and [p] and [q] move to [e].  When the match was empty ([e = q])
      the next round matches at the same place with [e = p], so [q] advances
      by one with nothing pending but the code unit stepped over.
    After the loop the substring from [p] to the end is pushed. *)

Fixpoint split_loop (pending : str) (skip : nat) (s : str) : list str :=
  match s with
  | [] => [rev pending]
  | c :: s' =>
      match skip with
      | S k => split_loop pending k s'
      | O =>
          match sep_match 30 s with
          | None => split_loop (c :: pending) 0 s'
          | Some (cap, rest) =>
              let consumed := (length s - length rest)%nat in
              match consumed with
              | O =>
                  match pending with
                  | [] => split_loop [c] 0 s'
                  | _ => rev pending :: cap :: split_loop [c] 0 s'
                  end
              | S k => rev pending :: cap :: split_loop [] k s'
              end
          end
      end
  end.

(** An empty input gives the empty array when the pattern matches it (it
    does: [$] matches), and the one-element array otherwise. *)
Definition regexp_split (s : str) : list str :=
  match s with
  | [] => match sep_match 30 [] with Some _ => [] | None => [[]] end
  | _ => split_loop [] 0 s
  end.

(** [Boolean] as the predicate of [Array.prototype.filter] on strings: the
    empty string is the only falsy one. *)
Definition truthy (s : str) : bool :=
  match s with [] => false | _ => true end.

(** [title.trim().split(/(.{0,30})(?:\s|$)/g).filter(Boolean)] *)
Definition lines (title : str) : list str :=
  List.filter truthy (regexp_split (trim title)).

(** ** Values and the [data] object

    The values [data[name]] can evaluate to: a line (a string), [undefined]
    (a line that was not produced), or, through the prototype chain of the
    object literal, a built-in of [Object.prototype]. *)

Inductive value :=
  | Undefined
  | Str (s : str)
  | NativeFunction (name : str)
  | ObjectPrototype.

(** [ToBoolean] *)
Definition to_boolean (v : value) : bool :=
  match v with
  | Undefined => false
  | Str s => truthy s
  | NativeFunction _ | ObjectPrototype => true
  end.

(** [a || b] *)
Definition js_or (a b : value) : value := if to_boolean a then a else b.

(** [ToString], which [String.prototype.replace] applies to what the
    replacer function returns. *)
Definition to_string (v : value) : str :=
  match v with
  | Undefined => u "undefined"
  | Str s => s
  | NativeFunction name => u "function " ++ name ++ u "() { [native code] }"
  | ObjectPrototype => u "[object Object]"
  end.

(** [lines[i]]: [undefined] out of range. *)
Definition index (l : list str) (i : nat) : value :=
  match l !! i with Some s => Str s | None => Undefined end.

(** The own properties of
    [{ title1: lines[0], title2: lines[1], title3: lines[2] }]. *)
Definition data (l : list str) : gmap str value :=
  <[u "title3" := index l 2]>
    (<[u "title2" := index l 1]> (<[u "title1" := index l 0]> ∅)).

(** The properties every object literal inherits from [Object.prototype]. *)
Definition object_prototype_functions : list string :=
  ["__defineGetter__"; "__defineSetter__"; "hasOwnProperty";
   "__lookupGetter__"; "__lookupSetter__"; "isPrototypeOf";
   "propertyIsEnumerable"; "toString"; "valueOf"; "toLocaleString"]%string.

Definition object_prototype_get (name : str) : value :=
  if decide (name = u "constructor") then NativeFunction (u "Object")
  else if decide (name = u "__proto__") then ObjectPrototype
  else if decide (name ∈ map u object_prototype_functions)
       then NativeFunction name
  else Undefined.

(** [obj[name]]: an own property, else the prototype's. *)
Definition get (obj : gmap str value) (name : str) : value :=
  match obj !! name with
  | Some v => v
  | None => object_prototype_get name
  end.

(** ** [ogSvg.replace(/\{\{([^}]+)\}\}/g, (_, name) => data[name] || '')]

    [marker_body] is [([^}]+)\}\}] at the head of [s], after the two opening
    braces: the capture and the input left after the match. *)

Definition lbrace : char := 123.
Definition rbrace : char := 125.

Fixpoint marker_body (s : str) : option (str * str) :=
  match s with
  | [] => None
  | c :: s' =>
      if c =? rbrace then None
      else match marker_body s' with
           | Some (name, rest) => Some (c :: name, rest)
           | None =>
               match s' with
               | c1 :: c2 :: rest =>
                   if (c1 =? rbrace) && (c2 =? rbrace)
                   then Some ([c], rest) else None
               | _ => None
               end
           end
  end.

Definition marker_match (s : str) : option (str * str) :=
  match s with
  | c1 :: c2 :: s' =>
      if (c1 =? lbrace) && (c2 =? lbrace) then marker_body s' else None
  | _ => None
  end.

(** The global replace: matches are looked for from left to right; a match
    is replaced by what [f] returns for its capture and the search goes on
    after it ([skip] counts the code units of the match still to step over);
    where there is no match the code unit is kept. *)
Fixpoint replace_loop (f : str -> str) (skip : nat) (s : str) : str :=
  match s with
  | [] => []
  | c :: s' =>
      match skip with
      | S k => replace_loop f k s'
      | O =>
          match marker_match s with
          | Some (name, rest) =>
              f name ++ replace_loop f (length s - length rest - 1) s'
          | None => c :: replace_loop f 0 s'
          end
      end
  end.

Definition replace_markers (f : str -> str) (s : str) : str :=
  replace_loop f 0 s.

(** [(_, name) => data[name] || ''], and the string [replace] makes of it *)
Definition replacer (obj : gmap str value) (name : str) : str :=
  to_string (js_or (get obj name) (Str [])).

(** [svg]: the document handed to the rasteriser. *)
Definition svg (ogSvg : str) (title : str) : str :=
  replace_markers (replacer (data (lines title))) ogSvg.

(** ** The file system, the console and the rasteriser

    What [genOg] calls is Node's and sharp's, not this repository's; it is
    modelled as far as [genOg] can tell.  Paths are compared as strings, so
    the model reads a path the way the build writes it
    ([src/public/og/<page>.png]): no [.] or [..] segments, no doubled
    slashes.  The current directory [.] and the root [/] always exist.

    A path may hold a symbolic link.  What a link points to lies outside
    the paths named here, so a link is kept with what it leads to: nothing
    (a dangling link), a regular file with its content, or a directory. *)

Inductive link_target :=
  | Dangling
  | ToFile (content : list N)
  | ToDir.

Inductive entry :=
  | File (content : list N)
  | Dir
  | Symlink (target : link_target).

Inductive error :=
  | EEXIST (path : str)
  | EACCES (path : str)
  | ENOENT (path : str)
  | EISDIR (path : str)
  | ENOTDIR (path : str)
  | SharpError (message : str)
  | TypeError (message : str).

Inductive log_line :=
  | Log_info (message : str)
  | Log_error (message : str) (cause : error).

Record World := mkWorld {
  files : gmap str entry;
  console : list log_line
}.

(** What the run cannot decide by itself: the template read when the module
    is loaded, which directories and files the process may not create, and
    what [sharp(...).resize(1440, 810).png()] makes of a document. *)
Record Env := mkEnv {
  ogSvg : str;
  mkdir_denied : str -> bool;
  rasterize : str -> error + list N;
  write_denied : str -> bool
}.

Definition slash : char := 47.

Definition is_root (p : str) : bool :=
  bool_decide (p = [46]) || bool_decide (p = [slash]).

(** What [stat] finds behind an entry: links are followed, and a dangling
    link leads to nothing. *)
Definition follow (x : entry) : option entry :=
  match x with
  | File c => Some (File c)
  | Dir => Some Dir
  | Symlink Dangling => None
  | Symlink (ToFile c) => Some (File c)
  | Symlink ToDir => Some Dir
  end.

Definition stat_entry (fs : gmap str entry) (p : str) : option entry :=
  fs !! p ≫= follow.

(** What is at a path, links followed. *)
Definition lookup_path (w : World) (p : str) : option entry :=
  if is_root p then Some Dir else stat_entry (files w) p.

(** [fs.existsSync]: links are followed, and any error is [false]. *)
Definition existsSync (w : World) (p : str) : bool :=
  match lookup_path w p with Some _ => true | None => false end.

(** [path.dirname] (POSIX).  [dirname_scan] is its loop, from the last index
    down to index 1, over the code units in that order; the result is the
    index [end] of the slash that closes the directory part. *)
Fixpoint dirname_scan (matchedSlash : bool) (r : str) : option nat :=
  match r with
  | [] => None
  | c :: r' =>
      if c =? slash then
        if matchedSlash then dirname_scan true r' else Some (length r)
      else dirname_scan false r'
  end.

Definition dirname (p : str) : str :=
  match p with
  | [] => [46]
  | c0 :: body =>
      let hasRoot := c0 =? slash in
      match dirname_scan true (rev body) with
      | None => if hasRoot then [slash] else [46]
      | Some e =>
          if hasRoot && (e =? 1)%nat then [slash; slash] else take e p
      end
  end.

(** The directories [mkdirSync(d, { recursive: true })] has to find or make:
    [d] and the directories above it, the topmost first. *)
Fixpoint chain_up (fuel : nat) (d : str) : list str :=
  match fuel with
  | O => []
  | S fuel' => if is_root d then [] else chain_up fuel' (dirname d) ++ [d]
  end.

Definition chain (d : str) : list str := chain_up (length d) d.

(** One directory [d] of the chain of [target]: found (as it is or behind
    a link), made, or in the way.  The error names the directory asked for:
    a file in the way is [EEXIST] at [target] itself and [ENOTDIR] above
    it, a dangling link [ENOENT].  After an error nothing more is made; what
    was made before it stays. *)
Definition mkdir_one (E : Env) (target : str)
  (st : option error * gmap str entry) (d : str)
  : option error * gmap str entry :=
  match st with
  | (Some e, fs) => (Some e, fs)
  | (None, fs) =>
      match fs !! d with
      | Some Dir | Some (Symlink ToDir) => (None, fs)
      | Some (File _) | Some (Symlink (ToFile _)) =>
          (Some (if decide (d = target) then EEXIST target
                 else ENOTDIR target), fs)
      | Some (Symlink Dangling) => (Some (ENOENT target), fs)
      | None => if mkdir_denied E d then (Some (EACCES target), fs)
                else (None, <[d := Dir]> fs)
      end
  end.

(** [fs.mkdirSync(d, { recursive: true })]: the error thrown, if any, and
    the file system it leaves. *)
Definition mkdirSync (E : Env) (fs : gmap str entry) (d : str)
  : option error * gmap str entry :=
  fold_left (mkdir_one E d) (chain d) (None, fs).

(** Writing a file at a path: through the link when the path holds one. *)
Definition write_file (p : str) (content : list N) (fs : gmap str entry)
  : gmap str entry :=
  match fs !! p with
  | Some (Symlink _) => <[p := Symlink (ToFile content)]> fs
  | _ => <[p := File content]> fs
  end.

(** [sharp(Buffer.from(svg)).resize(1440, 810).png().toFile(output)]: the
    promise is rejected when the document cannot be rasterised or the file
    cannot be written, and then nothing is written. *)
Definition toFile (E : Env) (doc output : str) (w : World)
  : error + World :=
  match rasterize E doc with
  | inl e => inl e
  | inr png =>
      match lookup_path w (dirname output) with
      | Some Dir =>
          match lookup_path w output with
          | Some Dir => inl (EISDIR output)
          | _ => if write_denied E output then inl (EACCES output)
                 else inr (mkWorld (write_file output png (files w))
                                   (console w))
          end
      | _ => inl (ENOENT output)
      end
  end.

Definition console_info (message : str) (w : World) : World :=
  mkWorld (files w) (console w ++ [Log_info message]).

Definition console_error (message : str) (cause : error) (w : World)
  : World :=
  mkWorld (files w) (console w ++ [Log_error message cause]).

(** ** [genOg]

    An [async] function: [Returned] is the promise fulfilled, [Thrown e] the
    promise rejected with [e], which the caller's [await] throws. *)

Inductive outcome :=
  | Returned
  | Thrown (e : error).

Definition genOg (E : Env) (title output : str) (w : World)
  : outcome * World :=
  if existsSync w output then (Returned, w)
  else
    match mkdirSync E (files w) (dirname output) with
    | (Some e, fs) => (Thrown e, mkWorld fs (console w))
    | (None, fs) =>
        let w1 := mkWorld fs (console w) in
        let w2 := console_info (u "Generating " ++ output) w1 in
        match toFile E (svg (ogSvg E) title) output w2 with
        | inr w3 => (Returned, w3)
        | inl e =>
            (Returned, console_error (u "Failed to generate og image") e w2)
        end
    end.

(** The build calls [genOg] once per page; [run] is a sequence of calls,
    each with its title and output path, whatever their outcomes. *)
Definition run (E : Env) (calls : list (str * str)) (w : World) : World :=
  fold_left (fun w c => (genOg E c.1 c.2 w).2) calls w.

(** How a call that got as far as the rasteriser fails: sharp rejects the
    document, or the file may not be written. *)
Definition sharp_fails (E : Env) (title output : str) (e : error) : Prop :=
  rasterize E (svg (ogSvg E) title) = inl e
  ∨ (∃ png, rasterize E (svg (ogSvg E) title) = inr png
            ∧ write_denied E output = true ∧ e = EACCES output).

(** ** What a console line says

    [console.error(message, e)] prints the message and the error, separated
    by a space. *)

Definition error_text (e : error) : str :=
  match e with
  | EEXIST p => u "EEXIST: file already exists, mkdir '" ++ p ++ u "'"
  | EACCES p => u "EACCES: permission denied, '" ++ p ++ u "'"
  | ENOENT p => u "ENOENT: no such file or directory, '" ++ p ++ u "'"
  | EISDIR p => u "EISDIR: illegal operation on a directory, '" ++ p ++ u "'"
  | ENOTDIR p => u "ENOTDIR: not a directory, mkdir '" ++ p ++ u "'"
  | SharpError m => m
  | TypeError m => u "TypeError: " ++ m
  end.

Definition log_text (l : log_line) : str :=
  match l with
  | Log_info m => m
  | Log_error m e => m ++ u " " ++ error_text e
  end.

Fixpoint starts_with (s p : str) : bool :=
  match p, s with
  | [], _ => true
  | a :: p', b :: s' => (a =? b) && starts_with s' p'
  | _ :: _, [] => false
  end.

(** [s.includes(p)] *)
Fixpoint includes (s p : str) : bool :=
  starts_with s p
  || match s with
     | [] => false
     | _ :: s' => includes s' p
     end.

(** ** Some environments and worlds *)

(** A template with the three markers [og-template.svg] is to have. *)
Definition template3 : str :=
  u "<svg><text>{{title1}}</text><text>{{title2}}</text><text>{{title3}}</text></svg>".

(** Everything works: the rasteriser answers with a PNG signature. *)
Definition env_ok : Env :=
  mkEnv template3 (fun _ => false) (fun _ => inr [137; 80; 78; 71])
        (fun _ => false).

(** sharp rejects every document. *)
Definition env_bad_svg : Env :=
  mkEnv template3 (fun _ => false)
        (fun _ => inl (SharpError
                         (u "Input buffer contains unsupported image format")))
        (fun _ => false).

(** No directory may be created. *)
Definition env_readonly : Env :=
  mkEnv template3 (fun _ => true) (fun _ => inr [137; 80; 78; 71])
        (fun _ => false).

Definition empty_world : World := mkWorld ∅ [].

(** A regular file named [og] where the directory [og] should be. *)
Definition world_og_is_file : World := mkWorld {[ u "og" := File [] ]} [].

(** A directory where the image should be. *)
Definition world_dir_at_output : World :=
  mkWorld {[ u "og" := Dir; u "og/post.png" := Dir ]} [].

(** A dangling symbolic link where the image should be. *)
Definition world_dangling_link : World :=
  mkWorld {[ u "og" := Dir; u "og/post.png" := Symlink Dangling ]} [].

(** The image already made. *)
Definition world_image_made : World :=
  mkWorld {[ u "og" := Dir; u "og/post.png" := File [137; 80; 78; 71] ]} [].

(** ** Vocabulary of the statements *)

(** The segment a placeholder stands for: the empty string when the title
    did not give that many. *)
Definition segment (l : list str) (i : nat) : str := default [] (l !! i).

(** The marker [{{name}}]. *)
Definition marker (name : str) : str := u "{{" ++ name ++ u "}}".

Definition title_names : list str := [u "title1"; u "title2"; u "title3"].

(** The names [Object.prototype] answers to. *)
Definition inherited_names : list str :=
  u "constructor" :: u "__proto__" :: map u object_prototype_functions.

(** The words of a string: its maximal runs of code units that are not
    white space. *)
Fixpoint words (s : str) : list str :=
  match s with
  | [] => []
  | c :: s' =>
      if is_space c then words s'
      else match s' with
           | [] => [[c]]
           | c' :: _ =>
               if is_space c' then [c] :: words s'
               else match words s' with
                    | w :: ws => (c :: w) :: ws
                    | [] => [[c]]
                    end
           end
  end.

(** [word_fits n k s]: no word of [s] has more than [n] code units, the
    first one no more than [k]. *)
Fixpoint word_fits (n k : nat) (s : str) : bool :=
  match s with
  | [] => true
  | c :: s' =>
      if is_space c then word_fits n n s'
      else match k with
           | O => false
           | S k' => word_fits n k' s'
           end
  end.

(** No word of [s] has more than 30 code units. *)
Definition no_long_word (s : str) : Prop :=
  Forall (λ w, length w ≤ 30)%nat (words s).

(** Where a line may end: before a white-space code unit or at the end. *)
Definition at_boundary (tl : str) : Prop :=
  match tl with
  | [] => True
  | c :: _ => is_space c = true
  end.

(** [line_of s cap rest]: [cap] is a line at the head of [s], of at most 30
    code units, none a line terminator, ending at a boundary; [rest] is what
    follows once the white-space code unit at the break is dropped. *)
Definition line_of (s cap rest : str) : Prop :=
  (length cap ≤ 30)%nat
  ∧ Forall (λ c, is_dot c = true) cap
  ∧ ((s = cap ∧ rest = []) ∨ ∃ c, is_space c = true ∧ s = cap ++ c :: rest).

Definition longest_line (s cap rest : str) : Prop :=
  line_of s cap rest
  ∧ ∀ cap' rest', line_of s cap' rest' → (length cap' ≤ length cap)%nat.

(** Greedy word wrap with the hard limit 30: line after line, each the
    longest there is. *)
Inductive Wrap : str → list str → Prop :=
  | Wrap_end : Wrap [] []
  | Wrap_line (s cap rest : str) (ls : list str) :
      s ≠ [] → longest_line s cap rest → Wrap rest ls → Wrap s (cap :: ls).

(** The wrap as the specification words it: code units are accumulated until
    the soft limit of 30 is reached ([room] counts down to it), then the
    line goes on to the next white-space code unit, or the end. *)
Fixpoint spec_soft_wrap_loop (acc : str) (room : nat) (s : str) : list str :=
  match s with
  | [] => [rev acc]
  | c :: s' =>
      match room with
      | S room' => spec_soft_wrap_loop (c :: acc) room' s'
      | O => if is_space c then rev acc :: spec_soft_wrap_loop [] 30 s'
             else spec_soft_wrap_loop (c :: acc) 0 s'
      end
  end.

Definition spec_soft_wrap (s : str) : list str :=
  List.filter truthy (spec_soft_wrap_loop [] 30 s).

(** Two titles: one of the blog's, and one that is a single word of 40. *)
Definition title_laravel : str :=
  u "Why You Don't Need the Repository Pattern in Laravel".

Definition title_one_word : str := repeat 97 40.

(** ** The site configuration: [transformPageData]

    The hook runs for each page: it sets the layout of blog articles, fills
    the [head] of the page's frontmatter ([fm_head]) with meta tags and has [genOg] make
    the page's image. *)

Definition dash : char := 45.

(** [/\.md$/] at the head of [s]. *)
Definition md_match (s : str) : bool := bool_decide (s = u ".md").

(** [/(index)?\.md$/] at the head of [s]: the optional group is greedy, so
    [index] is tried first and skipped only when the rest fails after it. *)
Definition index_md_match (s : str) : bool :=
  (starts_with s (u "index") && md_match (drop 5 s)) || md_match s.

(** [s.replace(re, by)] for a pattern [re] without the [g] flag that ends in
    [$]: the first position from the left where the pattern matches is
    looked for; the match reaches the end of the string, so [by] (which has
    no [$] in it) takes the place of all that is left. *)
Fixpoint replace_at_end (m : str -> bool) (by_ : str) (s : str) : str :=
  if m s then by_
  else match s with
       | [] => []
       | c :: s' => c :: replace_at_end m by_ s'
       end.

(** [s.replaceAll(/\//g, '-')] *)
Definition slashes_to_dashes (s : str) : str :=
  map (fun c => if c =? slash then dash else c) s.

(** [ogName] *)
Definition ogName (filePath : str) : str :=
  replace_at_end md_match (u ".png") (slashes_to_dashes filePath).

(** [pageData.filePath.replace(/(index)?\.md$/, '')] *)
Definition page_path (filePath : str) : str :=
  replace_at_end index_md_match [] filePath.

(** A value of the frontmatter, which is parsed YAML and not typed: absent
    (or null), a string, or something else (a number, a boolean, a date, a
    list, a map), of which the truth value and the text are kept. *)
Inductive yaml :=
  | YAbsent
  | YString (s : str)
  | YOther (truthy_ : bool) (text : str).

(** [ToBoolean] *)
Definition yaml_truthy (v : yaml) : bool :=
  match v with
  | YAbsent => false
  | YString s => truthy s
  | YOther b _ => b
  end.

(** An entry of [head]: a tag and its attributes. *)
Definition head_entry : Type := str * list (str * yaml).

(** The frontmatter of a page, as far as the hook reads or writes it; a key
    that is absent is [None]. *)
Record Frontmatter := mkFrontmatter {
  fm_title : yaml;
  fm_description : yaml;
  layout : option str;
  fm_head : option (list head_entry)
}.

(** [pageData]; [pageTitle] and [pageDescription] are its [title] and
    [description]. *)
Record PageData := mkPageData {
  filePath : str;
  pageTitle : str;
  pageDescription : str;
  frontmatter : Frontmatter
}.

(** [siteConfig]: [srcDir], [site.title] and [site.description]. *)
Record SiteConfig := mkSiteConfig {
  srcDir : str;
  siteTitle : str;
  siteDescription : str
}.

(** The two functions of the package [ufo] the hook calls; they are not
    this repository's and are taken as they come. *)
Record Ufo := mkUfo {
  joinURL : str -> list str -> str;
  withoutTrailingSlash : str -> str
}.

Definition siteUrl : str := u "https://techemiretus.dev".

(** [a || b || c] where [a] is the frontmatter's and [b], [c] are strings. *)
Definition first_truthy (a : yaml) (b c : str) : yaml :=
  if yaml_truthy a then a else YString (if truthy b then b else c).

Definition meta_property (property : str) (content : yaml) : head_entry :=
  (u "meta", [(u "property", YString property); (u "content", content)]).

Definition meta_name (name : str) (content : yaml) : head_entry :=
  (u "meta", [(u "name", YString name); (u "content", content)]).

Definition link_canonical (href : str) : head_entry :=
  (u "link", [(u "rel", YString (u "canonical")); (u "href", YString href)]).

Definition set_layout (l : option str) (fm : Frontmatter) : Frontmatter :=
  mkFrontmatter (fm_title fm) (fm_description fm) l (fm_head fm).

Definition set_head (h : list head_entry) (fm : Frontmatter) : Frontmatter :=
  mkFrontmatter (fm_title fm) (fm_description fm) (layout fm) (Some h).

Definition set_frontmatter (fm : Frontmatter) (pd : PageData) : PageData :=
  mkPageData (filePath pd) (pageTitle pd) (pageDescription pd) fm.

(** The title and the description the tags carry. *)
Definition og_title (siteConfig : SiteConfig) (pageData : PageData) : yaml :=
  first_truthy (fm_title (frontmatter pageData)) (pageTitle pageData)
               (siteTitle siteConfig).

Definition og_description (siteConfig : SiteConfig) (pageData : PageData)
  : yaml :=
  first_truthy (fm_description (frontmatter pageData))
               (pageDescription pageData) (siteDescription siteConfig).

(** The path [genOg] is given for a page. *)
Definition og_output (U : Ufo) (siteConfig : SiteConfig) (filePath : str)
  : str :=
  joinURL U (srcDir siteConfig) [u "public"; u "og"; ogName filePath].

(** The entries pushed before the call of [genOg], and after it. *)
Definition head_before (U : Ufo) (siteConfig : SiteConfig)
  (pageData : PageData) : list head_entry :=
  let url := joinURL U siteUrl
               [withoutTrailingSlash U (page_path (filePath pageData))] in
  [meta_property (u "og:title") (og_title siteConfig pageData);
   meta_name (u "twitter:title") (og_title siteConfig pageData);
   meta_property (u "og:description") (og_description siteConfig pageData);
   meta_name (u "twitter:description") (og_description siteConfig pageData);
   link_canonical url;
   meta_property (u "og:url") (YString url)].

Definition head_after (U : Ufo) (pageData : PageData) : list head_entry :=
  let image := joinURL U siteUrl [u "og"; ogName (filePath pageData)] in
  [meta_property (u "og:image") (YString image);
   meta_name (u "twitter:image") (YString image)].

(** What [title.trim()] throws for a title that is not a string. *)
Definition trim_type_error (t : yaml) : error :=
  match t with
  | YAbsent =>
      TypeError (u "Cannot read properties of undefined (reading 'trim')")
  | _ => TypeError (u "title.trim is not a function")
  end.

(** [genOg] as the hook calls it, with whatever the title is: a title that
    is not a string passes the existence check and [mkdirSync] like any
    other, and then [title.trim()], which is before the [try], throws. *)
Definition genOg_any (E : Env) (t : yaml) (output : str) (w : World)
  : outcome * World :=
  match t with
  | YString title => genOg E title output w
  | _ =>
      if existsSync w output then (Returned, w)
      else
        match mkdirSync E (files w) (dirname output) with
        | (Some e, fs) => (Thrown e, mkWorld fs (console w))
        | (None, fs) => (Thrown (trim_type_error t), mkWorld fs (console w))
        end
  end.

(** [transformPageData(pageData, { siteConfig })]: [pageData] is changed in
    place, so what was pushed before [genOg] threw stays pushed. *)
Definition transformPageData (U : Ufo) (E : Env) (siteConfig : SiteConfig)
  (pageData : PageData) (w : World) : outcome * PageData * World :=
  let fm1 :=
    if starts_with (filePath pageData) (u "blog/")
    then set_layout (Some (u "blog-post")) (frontmatter pageData)
    else frontmatter pageData in
  let head0 := default [] (fm_head fm1) in
  let head1 := head0 ++ head_before U siteConfig pageData in
  match genOg_any E (og_title siteConfig pageData)
          (og_output U siteConfig (filePath pageData)) w with
  | (Thrown e, w') =>
      (Thrown e, set_frontmatter (set_head head1 fm1) pageData, w')
  | (Returned, w') =>
      (Returned,
       set_frontmatter (set_head (head1 ++ head_after U pageData) fm1)
                       pageData,
       w')
  end.

(** ** The layout component

    What [<main>] shows for a page: [Home] has a [v-if] of its own;
    [BlogIndex], [BlogPost], [NotFound] and [Content] are one chain of
    [v-if], [v-else-if] and [v-else]. *)

Inductive component := Home | BlogIndex | BlogPost | NotFound | Content.

Definition layout_is (fm : Frontmatter) (name : string) : bool :=
  bool_decide (layout fm = Some (u name)).

(** [isBlogPost] *)
Definition isBlogPost (fm : Frontmatter) : bool := layout_is fm "blog-post".

Definition main_children (page : PageData) : list component :=
  (if layout_is (frontmatter page) "home" then [Home] else [])
  ++ (if layout_is (frontmatter page) "blog" then [BlogIndex]
      else if isBlogPost (frontmatter page) then [BlogPost]
      else if bool_decide (pageTitle page = u "404") then [NotFound]
      else [Content]).

(** ** The dark mode toggle

    [isDark] is the component's; the class list of the document element and
    the local storage are the browser's. *)

Record DarkMode := mkDarkMode {
  isDark : bool;
  classList : gset str;
  localStorage : gmap str str
}.

Definition appearance_key : str := u "vitepress-theme-appearance".

(** [classList.toggle(token)] *)
Definition classList_toggle (token : str) (cl : gset str) : gset str :=
  if decide (token ∈ cl) then cl ∖ {[ token ]} else cl ∪ {[ token ]}.

Definition appearance (dark : bool) : str :=
  if dark then u "dark" else u "light".

(** [toggleDarkMode] *)
Definition toggleDarkMode (s : DarkMode) : DarkMode :=
  let d := negb (isDark s) in
  mkDarkMode d (classList_toggle (u "dark") (classList s))
             (<[appearance_key := appearance d]> (localStorage s)).

(** The function given to [onMounted]; [prefersDark] is what
    [matchMedia('(prefers-color-scheme: dark)').matches] answers. *)
Definition onMounted (prefersDark : bool) (s : DarkMode) : DarkMode :=
  let systemPreference := appearance prefersDark in
  let d :=
    match localStorage s !! appearance_key with
    | Some (c :: p) => bool_decide (c :: p = u "dark")
    | _ => bool_decide (systemPreference = u "dark")
    end in
  mkDarkMode d
             (if d then classList s ∪ {[ u "dark" ]} else classList s)
             (localStorage s).

(** The flag and the class say the same. *)
Definition in_sync (s : DarkMode) : Prop :=
  isDark s = true ↔ u "dark" ∈ classList s.

(** What of a string is not white space. *)
Definition visible (s : str) : str :=
  List.filter (fun c => negb (is_space c)) s.

(** * Properties *)

(** ** Paths and directories *)

Section Paths.
Open Scope nat_scope.

Lemma dirname_scan_bound (m : bool) (r : str) (e : nat) :
  dirname_scan m r = Some e →
  1 ≤ e ≤ length r ∧ (m = true → e < length r).
Proof.
  revert m. induction r as [|c r IH]; intros m; simpl; [done|].
  destruct (c =? slash)%N.
  - destruct m.
    + intros H. apply IH in H as [? Hlt]. specialize (Hlt eq_refl). lia.
    + intros [= <-]. split; [lia | done].
  - intros H. apply IH in H as [? _]. lia.
Qed.

Lemma dirname_nonempty (p : str) : dirname p ≠ [].
Proof.
  destruct p as [|c0 body]; [done|]. unfold dirname.
  destruct (dirname_scan true (rev body)) as [e|] eqn:Hs.
  - apply dirname_scan_bound in Hs as [[? _] _].
    destruct (_ && _); [done|]. destruct e; [lia | done].
  - by destruct (c0 =? slash)%N.
Qed.

Lemma dirname_shorter (p : str) :
  is_root (dirname p) = true ∨ length (dirname p) < length p.
Proof.
  destruct p as [|c0 body]; [by left|]. unfold dirname.
  destruct (dirname_scan true (rev body)) as [e|] eqn:Hs.
  - right. apply dirname_scan_bound in Hs as [[? ?] Hlt].
    specialize (Hlt eq_refl). rewrite length_rev in *.
    destruct (_ && _); simpl; [lia|].
    destruct e; [lia|]. simpl. rewrite length_take. lia.
  - left. by destruct (c0 =? slash)%N.
Qed.

Lemma chain_up_root (fuel : nat) (d : str) :
  is_root d = true → chain_up fuel d = [].
Proof. intros H. destruct fuel; simpl; [done|]. by rewrite H. Qed.

(** The fuel of [chain] is enough: more of it changes nothing. *)
Lemma chain_up_fuel (f1 f2 : nat) (d : str) :
  d ≠ [] → length d ≤ f1 → length d ≤ f2 →
  chain_up f1 d = chain_up f2 d.
Proof.
  revert f2 d. induction f1 as [|f1 IH]; intros f2 d Hd H1 H2.
  - destruct d; [done | simpl in H1; lia].
  - destruct f2 as [|f2]; [destruct d; [done | simpl in H2; lia]|].
    simpl. destruct (is_root d) eqn:Hr; [done|]. f_equal.
    destruct (dirname_shorter d) as [Hroot|Hlt].
    + by rewrite !chain_up_root.
    + apply IH; [apply dirname_nonempty | lia | lia].
Qed.

Lemma chain_unfold (d : str) :
  d ≠ [] → is_root d = false → chain d = chain (dirname d) ++ [d].
Proof.
  intros Hd Hr. unfold chain at 1.
  destruct d as [|c d']; [done|]. cbn [length chain_up]. rewrite Hr.
  f_equal. destruct (dirname_shorter (c :: d')) as [Hroot|Hlt].
  - unfold chain. by rewrite !chain_up_root.
  - change (length (c :: d')) with (S (length d')) in Hlt.
    apply chain_up_fuel; [apply dirname_nonempty | lia | done].
Qed.

Lemma chain_up_elem (fuel : nat) (d a : str) :
  a ∈ chain_up fuel d → is_root a = false ∧ length a ≤ length d.
Proof.
  revert d. induction fuel as [|fuel IH]; intros d; simpl.
  - by intros ?%elem_of_nil.
  - destruct (is_root d) eqn:Hr; [by intros ?%elem_of_nil|].
    rewrite elem_of_app, list_elem_of_singleton. intros [Ha| ->]; [|done].
    destruct (dirname_shorter d) as [Hroot|Hlt].
    + rewrite chain_up_root in Ha by done. by apply elem_of_nil in Ha.
    + apply IH in Ha as [? ?]. split; [done | lia].
Qed.

(** The output path is not one of the directories above it. *)
Lemma output_not_in_chain (output : str) :
  output ∉ chain (dirname output).
Proof.
  intros Hin. pose proof Hin as Hin'.
  apply chain_up_elem in Hin as [Hr Hlen].
  destruct (dirname_shorter output) as [Hroot|Hlt]; [|lia].
  unfold chain in Hin'. rewrite chain_up_root in Hin' by done.
  by apply elem_of_nil in Hin'.
Qed.

Lemma dirname_in_chain (output : str) :
  is_root (dirname output) = false →
  dirname output ∈ chain (dirname output).
Proof.
  intros Hr. rewrite chain_unfold by (done || apply dirname_nonempty).
  rewrite elem_of_app, list_elem_of_singleton. by right.
Qed.
End Paths.

(** ** Directory creation *)

Section Mkdir.
Variable E : Env.

Lemma stat_entry_raw (fs fs' : gmap str entry) (p : str) :
  fs' !! p = fs !! p → stat_entry fs' p = stat_entry fs p.
Proof. unfold stat_entry. by intros ->. Qed.

Lemma mkdir_one_keeps (t : str) (st : option error * gmap str entry)
  (d p : str) (x : entry) :
  st.2 !! p = Some x → (mkdir_one E t st d).2 !! p = Some x.
Proof.
  destruct st as [[e|] fs]; simpl; [done|]. intros Hp.
  destruct (fs !! d) as [[c| |[|c|]]|] eqn:Hd; simpl; try done.
  destruct (mkdir_denied E d); simpl; [done|].
  rewrite lookup_insert_ne; [done|]. intros ->. congruence.
Qed.

Lemma mkdir_fold_keeps (t : str) (l : list str)
  (st : option error * gmap str entry) (p : str) (x : entry) :
  st.2 !! p = Some x → (fold_left (mkdir_one E t) l st).2 !! p = Some x.
Proof.
  revert st. induction l as [|d l IH]; intros st Hp; simpl; [done|].
  by apply IH, mkdir_one_keeps.
Qed.

Lemma mkdir_fold_error (t : str) (l : list str) (e : error)
  (fs : gmap str entry) :
  fold_left (mkdir_one E t) l (Some e, fs) = (Some e, fs).
Proof. induction l as [|d l IH]; simpl; [done | apply IH]. Qed.

(** A directory of the chain that raised no error is there, as it is or
    behind a link. *)
Lemma mkdir_one_ok (t : str) (fs fs1 : gmap str entry) (d : str) :
  mkdir_one E t (None, fs) d = (None, fs1) →
  ∃ x, fs1 !! d = Some x ∧ follow x = Some Dir.
Proof.
  simpl. destruct (fs !! d) as [[c| |[|c|]]|] eqn:Hd; try congruence.
  - intros [= <-]. eauto.
  - intros [= <-]. eauto.
  - destruct (mkdir_denied E d); [congruence|].
    intros [= <-]. exists Dir. by rewrite lookup_insert_eq.
Qed.

(** When no error was thrown, every directory of the chain is there. *)
Lemma mkdir_fold_ok (t : str) (l : list str) (fs fs' : gmap str entry) :
  fold_left (mkdir_one E t) l (None, fs) = (None, fs') →
  ∀ a, a ∈ l → stat_entry fs' a = Some Dir.
Proof.
  revert fs. induction l as [|d l IH]; intros fs Hf a Ha.
  - by apply elem_of_nil in Ha.
  - cbn [fold_left] in Hf.
    destruct (mkdir_one E t (None, fs) d) as [[e|] fs1] eqn:H1.
    { rewrite mkdir_fold_error in Hf. congruence. }
    apply elem_of_cons in Ha as [->|Ha]; [|by eapply IH].
    apply mkdir_one_ok in H1 as (x & Hd & Hx).
    unfold stat_entry. change fs' with ((None (A:=error), fs').2).
    rewrite <- Hf. by rewrite (mkdir_fold_keeps _ _ _ _ x).
Qed.

(** Nothing outside the chain is touched. *)
Lemma mkdir_one_other (t : str) (st : option error * gmap str entry)
  (d p : str) :
  p ≠ d → (mkdir_one E t st d).2 !! p = st.2 !! p.
Proof.
  intros Hne. destruct st as [[e|] fs]; simpl; [done|].
  destruct (fs !! d) as [[c| |[|c|]]|]; simpl; try done.
  destruct (mkdir_denied E d); simpl; [done|].
  by rewrite lookup_insert_ne.
Qed.

Lemma mkdir_fold_other (t : str) (l : list str)
  (st : option error * gmap str entry) (p : str) :
  p ∉ l → (fold_left (mkdir_one E t) l st).2 !! p = st.2 !! p.
Proof.
  revert st. induction l as [|d l IH]; intros st Hp; simpl; [done|].
  apply not_elem_of_cons in Hp as [? ?].
  rewrite IH by done. by apply mkdir_one_other.
Qed.

Lemma mkdirSync_keeps (fs : gmap str entry) (d p : str) (x : entry) :
  fs !! p = Some x → (mkdirSync E fs d).2 !! p = Some x.
Proof. intros. by apply mkdir_fold_keeps. Qed.

Lemma mkdirSync_keeps_stat (fs : gmap str entry) (d p : str) (x : entry) :
  stat_entry fs p = Some x → stat_entry (mkdirSync E fs d).2 p = Some x.
Proof.
  unfold stat_entry. destruct (fs !! p) as [y|] eqn:Hy; [|done].
  intros Hx. by rewrite (mkdirSync_keeps _ _ _ y).
Qed.

Lemma mkdirSync_ok (fs fs' : gmap str entry) (d : str) :
  mkdirSync E fs d = (None, fs') →
  ∀ a, a ∈ chain d → stat_entry fs' a = Some Dir.
Proof. apply mkdir_fold_ok. Qed.

Lemma mkdirSync_output (fs : gmap str entry) (output : str) :
  (mkdirSync E fs (dirname output)).2 !! output = fs !! output.
Proof. apply mkdir_fold_other, output_not_in_chain. Qed.

Lemma write_file_stat (fs : gmap str entry) (p : str) (c : list N) :
  stat_entry (write_file p c fs) p = Some (File c).
Proof.
  unfold stat_entry, write_file.
  destruct (fs !! p) as [[| |]|]; by rewrite lookup_insert_eq.
Qed.

Lemma write_file_other (fs : gmap str entry) (p q : str) (c : list N) :
  q ≠ p → write_file p c fs !! q = fs !! q.
Proof.
  intros Hne. unfold write_file.
  destruct (fs !! p) as [[| |]|]; by rewrite lookup_insert_ne.
Qed.
End Mkdir.

(** ** The shape of a call *)

Section Calls.
Variable E : Env.

Lemma existsSync_false (w : World) (p : str) :
  existsSync w p = false → is_root p = false ∧ stat_entry (files w) p = None.
Proof.
  unfold existsSync, lookup_path.
  destruct (is_root p); [done|]. by destruct (stat_entry (files w) p).
Qed.

(** Whatever is at a path stays there. *)
Lemma lookup_path_keeps (w : World) (fs : gmap str entry) (l : list log_line)
  (p : str) (x : entry) :
  (∀ y, stat_entry (files w) p = Some y → stat_entry fs p = Some y) →
  lookup_path w p = Some x → lookup_path (mkWorld fs l) p = Some x.
Proof.
  unfold lookup_path; simpl. destruct (is_root p); [done|]. auto.
Qed.

(** A call with the path taken does nothing. *)
Lemma genOg_exists (title output : str) (w : World) :
  existsSync w output = true → genOg E title output w = (Returned, w).
Proof. unfold genOg. by intros ->. Qed.

(** Once the directories are there, the output path is as it was and the
    directory above it is a directory. *)
Lemma after_mkdir (output : str) (w : World) (fs : gmap str entry)
  (l : list log_line) :
  existsSync w output = false →
  mkdirSync E (files w) (dirname output) = (None, fs) →
  lookup_path (mkWorld fs l) (dirname output) = Some Dir
  ∧ lookup_path (mkWorld fs l) output = None
  ∧ fs !! output = files w !! output.
Proof.
  intros Hex Hmk. apply existsSync_false in Hex as [Hr Hnone].
  assert (fs !! output = files w !! output) as Hraw.
  { change fs with ((None (A:=error), fs).2). rewrite <- Hmk.
    apply mkdirSync_output. }
  repeat split; [| |done].
  - unfold lookup_path. destruct (is_root (dirname output)) eqn:Hd; [done|].
    simpl. eapply mkdirSync_ok; [done|]. by apply dirname_in_chain.
  - unfold lookup_path. rewrite Hr. simpl.
    by rewrite (stat_entry_raw (files w)).
Qed.

(** A call with the path free, once the directories are there: the
    document is rasterised and written, or the failure is logged; the call
    returns either way. *)
Lemma genOg_after_mkdir (title output : str) (w : World)
  (fs : gmap str entry) :
  existsSync w output = false →
  mkdirSync E (files w) (dirname output) = (None, fs) →
  genOg E title output w =
    let w2 := mkWorld fs (console w ++ [Log_info (u "Generating " ++ output)])
    in
    match rasterize E (svg (ogSvg E) title) with
    | inl e =>
        (Returned, console_error (u "Failed to generate og image") e w2)
    | inr png =>
        if write_denied E output
        then (Returned, console_error (u "Failed to generate og image")
                          (EACCES output) w2)
        else (Returned, mkWorld (write_file output png fs) (console w2))
    end.
Proof.
  intros Hex Hmk. unfold genOg. rewrite Hex, Hmk. cbv zeta.
  unfold toFile, console_info. cbn [files console].
  destruct (rasterize E _) as [e|png]; [done|].
  destruct (after_mkdir output w fs
              (console w ++ [Log_info (u "Generating " ++ output)]) Hex Hmk)
    as (-> & -> & _).
  by destruct (write_denied E output).
Qed.

(** The only error a call lets out is the one of [mkdirSync]. *)
Lemma genOg_thrown (title output : str) (w : World) (e : error) :
  (genOg E title output w).1 = Thrown e ↔
  existsSync w output = false ∧
  (mkdirSync E (files w) (dirname output)).1 = Some e.
Proof.
  unfold genOg. destruct (existsSync w output); simpl.
  { split; [done | by intros [? _]]. }
  destruct (mkdirSync E (files w) (dirname output)) as [[e'|] fs]; simpl.
  - split; [by intros [= ->] | by intros [_ [= ->]]].
  - destruct (toFile _ _ _ _); simpl; split; (done || by intros [_ ?]).
Qed.

(** A call keeps every entry the file system had. *)
Lemma genOg_keeps (title output : str) (w : World) (p : str) (x : entry) :
  lookup_path w p = Some x →
  lookup_path (genOg E title output w).2 p = Some x.
Proof.
  intros Hp. destruct (existsSync w output) eqn:Hex.
  { by rewrite genOg_exists. }
  destruct (mkdirSync E (files w) (dirname output)) as [[e|] fs] eqn:Hmk.
  - unfold genOg. rewrite Hex, Hmk. simpl.
    eapply lookup_path_keeps; [|done]. intros y Hy.
    change fs with ((Some e, fs).2). rewrite <- Hmk.
    by apply mkdirSync_keeps_stat.
  - assert (∀ y, stat_entry (files w) p = Some y → stat_entry fs p = Some y)
      as Hfs.
    { intros y Hy. change fs with ((None (A:=error), fs).2). rewrite <- Hmk.
      by apply mkdirSync_keeps_stat. }
    rewrite (genOg_after_mkdir _ _ _ fs) by done. cbv zeta.
    destruct (rasterize E _) as [e|png]; simpl.
    { by eapply lookup_path_keeps. }
    destruct (write_denied E output); simpl.
    { by eapply lookup_path_keeps. }
    eapply lookup_path_keeps; [|done]. intros y Hy.
    destruct (decide (p = output)) as [->|Hne].
    + apply existsSync_false in Hex as [_ Hnone]. congruence.
    + rewrite (stat_entry_raw fs); [auto|]. by apply write_file_other.
Qed.

Lemma run_keeps (calls : list (str * str)) (w : World) (p : str)
  (x : entry) :
  lookup_path w p = Some x → lookup_path (run E calls w) p = Some x.
Proof.
  revert w. induction calls as [|c calls IH]; intros w Hp; [done|].
  apply IH. by apply genOg_keeps.
Qed.
End Calls.

(** ** The existence check *)

(** C3: if a regular file is at the output path, a call of [genOg] returns
    at once and leaves the world (file system and console) as it was; the
    file stays what it is through any later calls; and a second call with
    the same title and path after a first one that made the image does
    nothing. *)
Theorem genOg_existing_file_untouched (E : Env) (title output : str)
  (w : World) :
  (∀ content, lookup_path w output = Some (File content) →
     genOg E title output w = (Returned, w)
     ∧ ∀ calls, lookup_path (run E calls w) output = Some (File content))
  ∧ (∀ fs png,
       existsSync w output = false →
       mkdirSync E (files w) (dirname output) = (None, fs) →
       rasterize E (svg (ogSvg E) title) = inr png →
       write_denied E output = false →
       let w1 := (genOg E title output w).2 in
       lookup_path w1 output = Some (File png)
       ∧ genOg E title output w1 = (Returned, w1)).
Proof.
  split.
  - intros content Hf. split.
    + apply genOg_exists. unfold existsSync. by rewrite Hf.
    + intros calls. by apply run_keeps.
  - intros fs png Hex Hmk Hr Hw w1.
    assert (lookup_path w1 output = Some (File png)) as Hw1.
    { subst w1. rewrite (genOg_after_mkdir _ _ _ _ fs) by done.
      cbv zeta. rewrite Hr, Hw. simpl.
      apply existsSync_false in Hex as [Hroot _].
      unfold lookup_path. rewrite Hroot. simpl. apply write_file_stat. }
    split; [done|]. apply genOg_exists. unfold existsSync. by rewrite Hw1.
Qed.

Lemma genOg_existing_file_untouched_witness :
  genOg env_ok (u "A new title") (u "og/post.png") world_image_made
    = (Returned, world_image_made)
  ∧ (let w1 := (genOg env_ok (u "Hello") (u "og/post.png") empty_world).2 in
     lookup_path w1 (u "og/post.png") = Some (File [137; 80; 78; 71])
     ∧ genOg env_ok (u "Hello") (u "og/post.png") w1 = (Returned, w1)).
Proof.
  split.
  - apply (proj1 (genOg_existing_file_untouched env_ok (u "A new title")
                    (u "og/post.png") world_image_made)
             [137; 80; 78; 71]).
    vm_compute. reflexivity.
  - apply (proj2 (genOg_existing_file_untouched env_ok (u "Hello")
                    (u "og/post.png") empty_world)
             {[ u "og" := Dir ]} [137; 80; 78; 71]);
      vm_compute; reflexivity.
Defined.

(** C9, as stated, fails for an entry that [existsSync] does not see: with
    a dangling symbolic link at the output path the check is false although
    the path is occupied, and the call goes on: the directory is looked
    after, the notice is logged, and the image is written through the
    link. *)
Lemma genOg_dangling_link_not_seen :
  let output := u "og/post.png" in
  let r := genOg env_ok (u "Hello") output world_dangling_link in
  files world_dangling_link !! output = Some (Symlink Dangling)
  ∧ existsSync world_dangling_link output = false
  ∧ r.1 = Returned
  ∧ console r.2 = [Log_info (u "Generating og/post.png")]
  ∧ files r.2 !! output = Some (Symlink (ToFile [137; 80; 78; 71]))
  ∧ lookup_path r.2 output = Some (File [137; 80; 78; 71]).
Proof. by vm_compute. Qed.

(** C9, amended: the check is for any entry that [existsSync] sees, not only
    a regular file: with a directory at the output path, or a link that
    leads to a file or a directory, a call returns at once, with nothing
    created, written or logged and no error, and through any later calls
    what the path leads to stays what it is, so no image appears there. *)
Theorem genOg_any_entry_short_circuits (E : Env) (title output : str)
  (w : World) (x : entry) :
  lookup_path w output = Some x →
  genOg E title output w = (Returned, w)
  ∧ ∀ calls, lookup_path (run E calls w) output = Some x.
Proof.
  intros Hx. split.
  - apply genOg_exists. unfold existsSync. by rewrite Hx.
  - intros calls. by apply run_keeps.
Qed.

Lemma genOg_any_entry_short_circuits_witness :
  genOg env_ok (u "Hello") (u "og/post.png") world_dir_at_output
    = (Returned, world_dir_at_output)
  ∧ ∀ calls,
      lookup_path (run env_ok calls world_dir_at_output) (u "og/post.png")
        = Some Dir.
Proof.
  apply (genOg_any_entry_short_circuits env_ok (u "Hello") (u "og/post.png")
           world_dir_at_output Dir).
  vm_compute. reflexivity.
Defined.

(** ** Failures *)

Lemma starts_with_refl (p : str) : starts_with p p = true.
Proof. induction p as [|c p IH]; simpl; [done|]. by rewrite N.eqb_refl. Qed.

Lemma includes_app (a p : str) : includes (a ++ p) p = true.
Proof.
  induction a as [|c a IH]; simpl.
  - destruct p; simpl; [done|]. by rewrite N.eqb_refl, starts_with_refl.
  - rewrite IH. apply orb_true_r.
Qed.

Section Failures.
Variable E : Env.

(** A call that fails in sharp: what it returns and the world it leaves. *)
Lemma genOg_sharp_fails (title output : str) (w : World)
  (fs : gmap str entry) (e : error) :
  existsSync w output = false →
  mkdirSync E (files w) (dirname output) = (None, fs) →
  sharp_fails E title output e →
  genOg E title output w =
    (Returned,
     mkWorld fs (console w ++ [Log_info (u "Generating " ++ output);
                               Log_error (u "Failed to generate og image") e])).
Proof.
  intros Hex Hmk Hf. rewrite (genOg_after_mkdir _ _ _ _ fs) by done.
  cbv zeta. unfold console_error. cbn [files console].
  destruct Hf as [-> | (png & -> & -> & ->)];
    by rewrite <- app_assoc.
Qed.
End Failures.

(** C1, as stated, fails: [mkdirSync] is called before the [try] block, so
    with a regular file [og] in the way of the directory [og] the call for
    [og/post.png], where no file exists, ends in the error of [mkdirSync]. *)
Lemma genOg_mkdir_error_escapes :
  existsSync world_og_is_file (u "og/post.png") = false
  ∧ (genOg env_ok (u "Hello") (u "og/post.png") world_og_is_file).1
    = Thrown (EEXIST (u "og")).
Proof. vm_compute. done. Qed.

(** C1, amended: where no file exists at the output path and the directories
    could be made, no failure of the rasteriser, the encoder or the write
    leaves [genOg]: the call returns normally whatever they do. *)
Theorem genOg_contains_sharp_failures (E : Env) (title output : str)
  (w : World) :
  existsSync w output = false →
  (mkdirSync E (files w) (dirname output)).1 = None →
  (genOg E title output w).1 = Returned
  ∧ ∀ e, sharp_fails E title output e →
         ∃ w', genOg E title output w = (Returned, w')
               ∧ last (console w')
                 = Some (Log_error (u "Failed to generate og image") e).
Proof.
  intros Hex Hmk.
  destruct (mkdirSync E (files w) (dirname output)) as [err fs] eqn:Hm.
  simpl in Hmk. subst err. split.
  - destruct (genOg E title output w).1 as [|e] eqn:Hg; [done|].
    apply genOg_thrown in Hg as [_ Hg]. rewrite Hm in Hg. done.
  - intros e Hf. eexists. split; [by apply genOg_sharp_fails|].
    cbn [console]. by rewrite last_app.
Qed.

Lemma genOg_contains_sharp_failures_witness :
  (genOg env_bad_svg (u "Hello") (u "og/post.png") empty_world).1 = Returned.
Proof.
  apply (genOg_contains_sharp_failures env_bad_svg (u "Hello")
           (u "og/post.png") empty_world);
    vm_compute; reflexivity.
Defined.

(** C7, as stated, fails: the line logged for a failure is the fixed text and
    the error; when sharp rejects the document, the output path is nowhere
    in it. *)
Lemma genOg_error_line_without_path :
  let w' := (genOg env_bad_svg (u "Hello") (u "og/post.png") empty_world).2 in
  ∃ line, last (console w') = Some line
          ∧ line = Log_error
                     (u "Failed to generate og image")
                     (SharpError
                        (u "Input buffer contains unsupported image format"))
          ∧ includes (log_text line) (u "og/post.png") = false.
Proof. eexists. vm_compute. done. Qed.

(** C7, amended: when the rasteriser, the encoder or the write fails, the
    call returns and the console has two more lines: the notice
    [Generating <output>], logged before the attempt, which names the output
    path, and the error line, which is the fixed text
    [Failed to generate og image] with the underlying cause. *)
Theorem genOg_failure_logged (E : Env) (title output : str) (w : World)
  (fs : gmap str entry) (e : error) :
  existsSync w output = false →
  mkdirSync E (files w) (dirname output) = (None, fs) →
  sharp_fails E title output e →
  (genOg E title output w).1 = Returned
  ∧ console (genOg E title output w).2
    = console w ++ [Log_info (u "Generating " ++ output);
                    Log_error (u "Failed to generate og image") e]
  ∧ includes (log_text (Log_info (u "Generating " ++ output))) output = true.
Proof.
  intros Hex Hmk Hf. rewrite (genOg_sharp_fails E _ _ _ fs e) by done.
  repeat split. apply includes_app.
Qed.

Lemma genOg_failure_logged_witness :
  console (genOg env_bad_svg (u "Hello") (u "og/post.png") empty_world).2
  = [Log_info (u "Generating og/post.png");
     Log_error (u "Failed to generate og image")
       (SharpError (u "Input buffer contains unsupported image format"))].
Proof.
  refine (proj1 (proj2 (genOg_failure_logged env_bad_svg (u "Hello")
                          (u "og/post.png") empty_world {[ u "og" := Dir ]}
                          _ _ _ _))).
  - vm_compute. reflexivity.
  - vm_compute. reflexivity.
  - left. vm_compute. reflexivity.
Defined.

(** C10: a call that fails in the rasteriser or the write, after the
    existence check, returns normally and undoes nothing: the file system is
    the one [mkdirSync] left, every directory above the output path is
    there, and the output path itself holds nothing. *)
Theorem genOg_failure_keeps_directories (E : Env) (title output : str)
  (w : World) (fs : gmap str entry) (e : error) :
  existsSync w output = false →
  mkdirSync E (files w) (dirname output) = (None, fs) →
  sharp_fails E title output e →
  let r := genOg E title output w in
  r.1 = Returned
  ∧ files r.2 = fs
  ∧ (∀ d, d ∈ chain (dirname output) → lookup_path r.2 d = Some Dir)
  ∧ lookup_path r.2 (dirname output) = Some Dir
  ∧ lookup_path r.2 output = None.
Proof.
  intros Hex Hmk Hf r. subst r.
  rewrite (genOg_sharp_fails E _ _ _ fs e) by done. cbn [fst snd files].
  assert (∀ d, d ∈ chain (dirname output) → stat_entry fs d = Some Dir)
    as Hch by by eapply mkdirSync_ok.
  destruct (after_mkdir E output w fs
              (console w ++ [Log_info (u "Generating " ++ output);
                             Log_error (u "Failed to generate og image") e])
              Hex Hmk) as (Hdir & Hout & _).
  repeat split; [|done|done].
  intros d Hd. unfold lookup_path. cbn [files].
  apply chain_up_elem in Hd as Hr. destruct Hr as [-> _]. auto.
Qed.

Lemma genOg_failure_keeps_directories_witness :
  let r := genOg env_bad_svg (u "Hello") (u "src/public/og/post.png")
             empty_world in
  r.1 = Returned
  ∧ files r.2 = {[ u "src" := Dir; u "src/public" := Dir;
                   u "src/public/og" := Dir ]}
  ∧ (∀ d, d ∈ chain (dirname (u "src/public/og/post.png")) →
          lookup_path r.2 d = Some Dir)
  ∧ lookup_path r.2 (dirname (u "src/public/og/post.png")) = Some Dir
  ∧ lookup_path r.2 (u "src/public/og/post.png") = None.
Proof.
  refine (genOg_failure_keeps_directories env_bad_svg (u "Hello")
            (u "src/public/og/post.png") empty_world _ _ _ _ _).
  - vm_compute. reflexivity.
  - vm_compute. reflexivity.
  - left. vm_compute. reflexivity.
Defined.

(** ** The separator pattern *)

Section Separator.
Open Scope nat_scope.

Lemma nonspace_is_dot (c : char) : is_space c = false → is_dot c = true.
Proof.
  unfold is_space, is_dot. intros H.
  destruct (is_line_terminator c); [|done].
  by rewrite !orb_true_r in H.
Qed.

Lemma sep_tail_Some (s cap rest : str) :
  sep_tail s = Some (cap, rest) →
  cap = [] ∧ ((s = [] ∧ rest = []) ∨ ∃ c, is_space c = true ∧ s = c :: rest).
Proof.
  destruct s as [|c s']; simpl.
  - intros [= <- <-]. auto.
  - destruct (is_space c) eqn:Hc; [|done]. intros [= <- <-]. eauto.
Qed.

Lemma sep_tail_boundary (s : str) : at_boundary s → is_Some (sep_tail s).
Proof. destruct s as [|c s']; simpl; [eauto|]. intros ->. eauto. Qed.

Lemma sep_tail_line (n : nat) (s cap rest : str) :
  sep_tail s = Some (cap, rest) →
  length cap ≤ n
  ∧ Forall (λ c, is_dot c = true) cap
  ∧ ((s = cap ∧ rest = []) ∨ ∃ c, is_space c = true ∧ s = cap ++ c :: rest).
Proof.
  intros H. apply sep_tail_Some in H as [-> H]. simpl.
  split; [lia|]. split; [constructor|]. naive_solver.
Qed.

(** What the pattern matches is a line. *)
Lemma sep_match_line (n : nat) (s cap rest : str) :
  sep_match n s = Some (cap, rest) →
  length cap ≤ n
  ∧ Forall (λ c, is_dot c = true) cap
  ∧ ((s = cap ∧ rest = []) ∨ ∃ c, is_space c = true ∧ s = cap ++ c :: rest).
Proof.
  revert s cap rest. induction n as [|n IH]; intros s cap rest.
  - destruct s; cbn [sep_match]; apply sep_tail_line.
  - destruct s as [|c s']; cbn [sep_match]; [apply sep_tail_line|].
    destruct (is_dot c) eqn:Hc; [|apply sep_tail_line].
    destruct (sep_match n s') as [[cap0 rest0]|] eqn:Hm;
      [|apply sep_tail_line].
    intros [= <- <-]. apply IH in Hm as (Hl & Hd & Hs).
    split; [simpl; lia|]. split; [by constructor|].
    destruct Hs as [[-> ->]|(c0 & ? & ->)]; [by left|].
    right. by exists c0.
Qed.

(** Where there is a line, the pattern matches. *)
Lemma sep_match_complete (n : nat) (s cap tl : str) :
  s = cap ++ tl → length cap ≤ n → Forall (λ c, is_dot c = true) cap →
  at_boundary tl → is_Some (sep_match n s).
Proof.
  revert s cap. induction n as [|n IH]; intros s cap -> Hl Hd Hb.
  - destruct cap; [|simpl in Hl; lia]. simpl.
    destruct tl; by apply sep_tail_boundary.
  - destruct cap as [|c cap].
    + simpl. destruct tl as [|c tl']; [by apply sep_tail_boundary|].
      cbn [sep_match]. destruct (is_dot c).
      * destruct (sep_match n tl') as [[? ?]|]; [eauto|].
        by apply sep_tail_boundary.
      * by apply sep_tail_boundary.
    + apply Forall_cons in Hd as [Hc Hd]. simpl in Hl.
      cbn [app sep_match]. rewrite Hc.
      destruct (IH (cap ++ tl) cap eq_refl) as [[? ?] ->]; [lia|done|done|].
      eauto.
Qed.

(** The pattern matches the longest line. *)
Lemma sep_match_longest (n : nat) (s cap rest cap' tl : str) :
  sep_match n s = Some (cap, rest) →
  s = cap' ++ tl → length cap' ≤ n → Forall (λ c, is_dot c = true) cap' →
  at_boundary tl → length cap' ≤ length cap.
Proof.
  revert s cap rest cap'.
  induction n as [|n IH]; intros s cap rest cap' Hm -> Hl Hd Hb.
  - destruct cap'; simpl in *; lia.
  - destruct cap' as [|c cap']; [simpl; lia|].
    apply Forall_cons in Hd as [Hc Hd]. simpl in Hl.
    cbn [app sep_match] in Hm. rewrite Hc in Hm.
    destruct (sep_match n (cap' ++ tl)) as [[cap0 rest0]|] eqn:Hm0.
    + injection Hm as <- <-. simpl.
      assert (length cap' ≤ length cap0) by (eapply IH; eauto; lia). lia.
    + destruct (sep_match_complete n (cap' ++ tl) cap' tl) as [? ?];
        [done|lia|done|done|congruence].
Qed.

(** A word too long for the quantifier: no match. *)
Lemma sep_match_long_word (n : nat) (w : str) :
  Forall (λ c, is_space c = false) w → n < length w → sep_match n w = None.
Proof.
  revert w. induction n as [|n IH]; intros w Hw Hl.
  - destruct w as [|c w]; [simpl in Hl; lia|].
    apply Forall_cons in Hw as [Hc _]. simpl. by rewrite Hc.
  - destruct w as [|c w]; [simpl in Hl; lia|].
    apply Forall_cons in Hw as [Hc Hw]. simpl in Hl.
    cbn [sep_match]. rewrite (nonspace_is_dot c Hc), (IH w) by (done || lia).
    simpl. by rewrite Hc.
Qed.

(** A word that fits, up to the end of the input. *)
Lemma sep_match_word_end (n : nat) (w : str) :
  Forall (λ c, is_space c = false) w → length w ≤ n →
  sep_match n w = Some (w, []).
Proof.
  revert n. induction w as [|c w IH]; intros n Hw Hl.
  - by destruct n.
  - apply Forall_cons in Hw as [Hc Hw]. simpl in Hl.
    destruct n as [|n]; [lia|]. cbn [sep_match].
    rewrite (nonspace_is_dot c Hc), (IH n) by (done || lia). done.
Qed.

(** A line up to a white-space code unit, with no later boundary in
    reach. *)
Lemma sep_match_word_space (n : nat) (pre post : str) (sp : char) :
  Forall (λ c, is_dot c = true) pre → is_space sp = true →
  Forall (λ c, is_space c = false) post →
  length pre ≤ n → n < length pre + 1 + length post →
  sep_match n (pre ++ sp :: post) = Some (pre, post).
Proof.
  intros Hpre Hsp Hpost. revert n.
  induction pre as [|a pre IH]; intros n Hl Hr.
  - simpl in *. destruct n as [|n]; cbn [sep_match sep_tail].
    + by rewrite Hsp.
    + rewrite (sep_match_long_word n post) by (done || lia).
      destruct (is_dot sp); simpl; by rewrite Hsp.
  - apply Forall_cons in Hpre as [Ha Hpre]. simpl in Hl, Hr.
    destruct n as [|n]; [lia|]. cbn [app sep_match].
    rewrite Ha, (IH Hpre n) by lia. done.
Qed.
End Separator.

(** ** The split loop *)

Section Split.
Open Scope nat_scope.

(** Stepping over what a match consumed. *)
Lemma split_loop_skip (pre pending s : str) :
  split_loop pending (length pre) (pre ++ s) = split_loop pending 0 s.
Proof.
  induction pre as [|c pre IH]; [done|]. simpl. apply IH.
Qed.

(** What a match consumes of a non-empty input: at least one code unit. *)
Lemma sep_match_consumed (c : char) (s' cap rest : str) :
  sep_match 30 (c :: s') = Some (cap, rest) →
  ∃ pre, s' = pre ++ rest ∧ length (c :: s') - length rest = S (length pre).
Proof.
  intros H. apply sep_match_line in H as (_ & _ & [[Hs ->]|(c0 & _ & Hs)]).
  - exists s'. rewrite app_nil_r. split; [done|]. simpl. lia.
  - destruct cap as [|a cap]; simpl in Hs; injection Hs as -> ->.
    + exists []. split; [done|]. simpl. lia.
    + exists (cap ++ [c0]). rewrite <- app_assoc. split; [done|].
      simpl. rewrite !length_app. simpl. lia.
Qed.

(** A round of the loop where the pattern matches. *)
Lemma split_loop_match (pending s cap rest : str) :
  s ≠ [] → sep_match 30 s = Some (cap, rest) →
  split_loop pending 0 s = rev pending :: cap :: split_loop [] 0 rest.
Proof.
  intros Hs Hm. destruct s as [|c s']; [done|].
  destruct (sep_match_consumed _ _ _ _ Hm) as (pre & -> & Hlen).
  cbn [split_loop]. rewrite Hm. cbv zeta. rewrite Hlen.
  by rewrite split_loop_skip.
Qed.

(** A round of the loop where it does not. *)
Lemma split_loop_no_match (pending : str) (c : char) (s' : str) :
  sep_match 30 (c :: s') = None →
  split_loop pending 0 (c :: s') = split_loop (c :: pending) 0 s'.
Proof. intros Hm. cbn [split_loop]. by rewrite Hm. Qed.

Lemma trim_start_spaces (s : str) :
  Forall (λ c, is_space c = true) s → trim_start s = [].
Proof.
  induction 1 as [|c s Hc _ IH]; simpl; [done|]. by rewrite Hc.
Qed.

Lemma trim_end_snoc (s : str) (b : char) :
  is_space b = false → trim_end (s ++ [b]) = s ++ [b].
Proof.
  intros Hb. unfold trim_end. rewrite rev_app_distr.
  cbn [rev app trim_start]. rewrite Hb.
  cbn [rev]. by rewrite rev_involutive.
Qed.

(** [trim] leaves a string alone that neither starts nor ends with white
    space. *)
Lemma trim_word_ends (s : str) :
  (∀ c, head s = Some c → is_space c = false) →
  (∀ c, last s = Some c → is_space c = false) →
  trim s = s.
Proof.
  intros Hh Hl. destruct s as [|a s]; [done|].
  unfold trim. cbn [trim_start]. rewrite (Hh a eq_refl).
  destruct s as [|b s _] using rev_ind.
  - apply (trim_end_snoc [] a), (Hh a eq_refl).
  - apply (trim_end_snoc (a :: s) b), Hl.
    change (a :: s ++ [b]) with ((a :: s) ++ [b]). apply last_snoc.
Qed.

(** A string without white space is its own trimming. *)
Lemma trim_no_space (s : str) :
  Forall (λ c, is_space c = false) s → trim s = s.
Proof.
  intros Hs. apply trim_word_ends; intros c Hc.
  - apply head_Some_elem_of in Hc. by eapply Forall_forall in Hs.
  - apply last_Some_elem_of in Hc. by eapply Forall_forall in Hs.
Qed.

(** The whole split of a string that is one line up to a white-space code
    unit and one word after it. *)
Lemma lines_two (pre post : str) (sp : char) :
  Forall (λ c, is_space c = false) pre →
  Forall (λ c, is_space c = false) post →
  is_space sp = true →
  pre ≠ [] → post ≠ [] →
  length pre ≤ 30 → length post ≤ 30 → 30 < length pre + 1 + length post →
  lines (pre ++ sp :: post) = [pre; post].
Proof.
  intros Hpre Hpost Hsp Hne1 Hne2 Hl1 Hl2 Hl3. unfold lines.
  assert (split_loop [] 0 (pre ++ sp :: post) = [[]; pre; []; post; []])
    as Hsplit.
  { rewrite (split_loop_match [] _ pre post).
    - by rewrite (split_loop_match [] post post [])
        by (done || by apply sep_match_word_end).
    - by destruct pre.
    - apply sep_match_word_space; try done.
      eapply Forall_impl; [exact Hpre|]. apply nonspace_is_dot. }
  rewrite trim_word_ends.
  - unfold regexp_split. rewrite Hsplit.
    destruct pre; [done|]. by destruct post.
  - intros c Hc. destruct pre as [|a pre]; [done|].
    injection Hc as <-. by apply Forall_cons in Hpre as [? _].
  - intros c Hc. destruct post as [|b post _] using rev_ind; [done|].
    change (pre ++ sp :: post ++ [b]) with (pre ++ (sp :: post) ++ [b]) in Hc.
    rewrite app_assoc, last_snoc in Hc. injection Hc as <-.
    apply Forall_app in Hpost as [_ Hb]. by inversion Hb.
Qed.

(** The whole split of a string that is one word within the limit. *)
Lemma lines_one (w : str) :
  Forall (λ c, is_space c = false) w → w ≠ [] → length w ≤ 30 →
  lines w = [w].
Proof.
  intros Hw Hne Hl. unfold lines. rewrite trim_no_space by done.
  unfold regexp_split.
  assert (split_loop [] 0 w = [[]; w; []]) as Hsplit.
  { by rewrite (split_loop_match [] w w [])
      by (done || by apply sep_match_word_end). }
  destruct w as [|c w']; [done|]. by rewrite Hsplit.
Qed.
End Split.

(** C6: a title of exactly 30 code units without white space is one segment,
    the title itself; a title of 31 code units whose only white space is at
    position 28 (the 28th code unit, or the one at index 28) is two
    segments, the text before it and the text after it. *)
Theorem segmentation_boundary :
  (∀ title : str,
     length title = 30%nat → Forall (λ c, is_space c = false) title →
     lines title = [title])
  ∧ (∀ (pre post : str) (sp : char),
       (length pre = 27 ∨ length pre = 28)%nat →
       length (pre ++ sp :: post) = 31%nat →
       is_space sp = true →
       Forall (λ c, is_space c = false) pre →
       Forall (λ c, is_space c = false) post →
       lines (pre ++ sp :: post) = [pre; post]).
Proof.
  split.
  - intros title Hl Hw. apply lines_one; [done| |lia].
    intros ->. simpl in Hl. lia.
  - intros pre post sp Hl1 Hl Hsp Hpre Hpost.
    rewrite length_app in Hl. simpl in Hl.
    apply lines_two; try done.
    + intros ->. simpl in Hl1. lia.
    + intros ->. simpl in Hl. lia.
    + lia.
    + lia.
    + lia.
Qed.

Lemma segmentation_boundary_witness :
  lines (u "Supercalifragilisticexpialidoc")
    = [u "Supercalifragilisticexpialidoc"]
  ∧ lines (u "Why-You-Dont-Need-Repository in")
    = [u "Why-You-Dont-Need-Repository"; u "in"].
Proof.
  split.
  - apply (proj1 segmentation_boundary (u "Supercalifragilisticexpialidoc")).
    + reflexivity.
    + vm_compute. repeat constructor.
  - apply (proj2 segmentation_boundary (u "Why-You-Dont-Need-Repository")
             (u "in") 32%N).
    + right. reflexivity.
    + reflexivity.
    + reflexivity.
    + vm_compute. repeat constructor.
    + vm_compute. repeat constructor.
Defined.

(** ** Markers and their replacement *)

Section Replace.
Open Scope nat_scope.
Variable f : str → str.

Lemma marker_body_name (name rest : str) :
  name ≠ [] → rbrace ∉ name →
  marker_body (name ++ rbrace :: rbrace :: rest) = Some (name, rest).
Proof.
  induction name as [|c name IH]; intros Hne Hnot; [done|].
  apply not_elem_of_cons in Hnot as [Hc Hnot].
  cbn [app marker_body].
  assert ((c =? rbrace)%N = false) as -> by (apply N.eqb_neq; congruence).
  destruct name as [|c' name'].
  - simpl. done.
  - by rewrite IH.
Qed.

Lemma marker_match_marker (name rest : str) :
  name ≠ [] → rbrace ∉ name →
  marker_match (marker name ++ rest) = Some (name, rest).
Proof.
  intros Hne Hnot. unfold marker. rewrite <- !app_assoc.
  change (u "{{" ++ name ++ u "}}" ++ rest)
    with (lbrace :: lbrace :: name ++ rbrace :: rbrace :: rest).
  cbn [marker_match]. rewrite N.eqb_refl. cbn [andb].
  by apply marker_body_name.
Qed.

Lemma replace_loop_skip (pre s : str) :
  replace_loop f (length pre) (pre ++ s) = replace_loop f 0 s.
Proof. induction pre as [|c pre IH]; [done|]. simpl. apply IH. Qed.

(** A marker at the head is replaced and the search goes on after it. *)
Lemma replace_markers_marker (name rest : str) :
  name ≠ [] → rbrace ∉ name →
  replace_markers f (marker name ++ rest)
  = f name ++ replace_markers f rest.
Proof.
  intros Hne Hnot. unfold replace_markers.
  pose proof (marker_match_marker name rest Hne Hnot) as Hm.
  change (marker name ++ rest)
    with (lbrace :: (lbrace :: name ++ [rbrace; rbrace]) ++ rest) in *.
  cbn [replace_loop]. rewrite Hm. f_equal.
  rewrite <- (replace_loop_skip (lbrace :: name ++ [rbrace; rbrace]) rest).
  f_equal. simpl. rewrite !length_app. simpl. lia.
Qed.

(** Text in which no match starts is kept as it is. *)
Lemma replace_markers_text (pre s : str) :
  (∀ k, k < length pre → marker_match (drop k (pre ++ s)) = None) →
  replace_markers f (pre ++ s) = pre ++ replace_markers f s.
Proof.
  unfold replace_markers. induction pre as [|c pre IH]; intros H; [done|].
  pose proof (H 0 ltac:(simpl; lia)) as H0. cbn [drop app] in H0.
  cbn [app replace_loop]. rewrite H0. f_equal. apply IH.
  intros k Hk. apply (H (S k)). simpl. lia.
Qed.

(** Text without an opening brace is such text. *)
Lemma marker_match_no_brace (pre s : str) (k : nat) :
  lbrace ∉ pre → k < length pre →
  marker_match (drop k (pre ++ s)) = None.
Proof.
  revert k. induction pre as [|c pre IH]; intros k Hnot Hk.
  { simpl in Hk. lia. }
  apply not_elem_of_cons in Hnot as [Hc Hnot].
  destruct k as [|k]; [|apply IH; [done | simpl in Hk; lia]].
  cbn [drop app marker_match].
  destruct (pre ++ s) as [|c2 ?]; [done|].
  assert ((c =? lbrace)%N = false) as -> by (apply N.eqb_neq; congruence).
  done.
Qed.
End Replace.

Section Data.
Variable l : list str.

Lemma replacer_index (i : nat) (name : str) :
  get (data l) name = index l i → replacer (data l) name = segment l i.
Proof.
  unfold replacer, segment, index. intros ->.
  destruct (l !! i) as [s|]; [|done]. by destruct s.
Qed.

Lemma replacer_title1 : replacer (data l) (u "title1") = segment l 0.
Proof. by apply replacer_index. Qed.

Lemma replacer_title2 : replacer (data l) (u "title2") = segment l 1.
Proof. by apply replacer_index. Qed.

Lemma replacer_title3 : replacer (data l) (u "title3") = segment l 2.
Proof. by apply replacer_index. Qed.

(** A name that is none of the three and none of [Object.prototype]'s. *)
Lemma replacer_unknown (name : str) :
  name ∉ title_names → name ∉ inherited_names →
  replacer (data l) name = [].
Proof.
  unfold title_names, inherited_names. intros Ht Hi.
  rewrite !not_elem_of_cons in Ht, Hi.
  destruct Ht as (H1 & H2 & H3). destruct Hi as (Hc & Hp & Hf).
  apply not_elem_of_cons in H3 as [H3 _].
  unfold replacer, get, data.
  rewrite !lookup_insert_ne, lookup_empty by done.
  unfold object_prototype_get.
  rewrite !decide_False by done. done.
Qed.

(** Only the first three segments are read. *)
Lemma data_take : data (take 3 l) = data l.
Proof.
  unfold data, index. by rewrite !lookup_take_lt by lia.
Qed.
End Data.

(** ** Substitution *)

(** C4: the code does not do what the claim says for names that
    [Object.prototype] answers to.  [data[name] || ''] gives the empty
    string for every other unknown name, but [data] is an object literal
    and the lookup goes up the prototype chain: [constructor] is none of the
    three names, and its marker is replaced by the text of the function
    [Object], not by the empty string. *)
Lemma inherited_name_not_emptied :
  (u "constructor" ∉ title_names)
  ∧ svg (u "<text>{{constructor}}</text>") (u "Hello")
    = u "<text>function Object() { [native code] }</text>".
Proof.
  split; [|by vm_compute].
  apply (bool_decide_unpack _). by vm_compute.
Qed.

(** What the substitution does elsewhere: in any template, a marker
    [{{name}}] before which no other
    match starts is replaced, the text before it kept: by the first, second
    or third segment of the title when the name is [title1], [title2] or
    [title3] (the empty string when the title has no such segment), and by
    the empty string when the name is none of these three and none of the
    names an object inherits from [Object.prototype]; the rest of the
    template is treated the same way. *)
Theorem placeholder_substitution (title pre name post : str) :
  name ≠ [] → rbrace ∉ name →
  (∀ k, (k < length pre)%nat →
        marker_match (drop k (pre ++ marker name ++ post)) = None) →
  ∃ v, svg (pre ++ marker name ++ post) title
       = pre ++ v ++ svg post title
     ∧ (name = u "title1" → v = segment (lines title) 0)
     ∧ (name = u "title2" → v = segment (lines title) 1)
     ∧ (name = u "title3" → v = segment (lines title) 2)
     ∧ (name ∉ title_names → name ∉ inherited_names → v = []).
Proof.
  intros Hne Hnot Hpre. exists (replacer (data (lines title)) name).
  split.
  - unfold svg. rewrite replace_markers_text by done.
    by rewrite replace_markers_marker.
  - repeat split.
    + intros ->. apply replacer_title1.
    + intros ->. apply replacer_title2.
    + intros ->. apply replacer_title3.
    + apply replacer_unknown.
Qed.

Lemma placeholder_substitution_witness :
  ∃ v, svg (u "<text>" ++ marker (u "title2") ++ u "</text>")
         title_laravel
       = u "<text>" ++ v ++ svg (u "</text>") title_laravel
     ∧ (u "title2" = u "title2" → v = u "Repository Pattern in Laravel").
Proof.
  destruct (placeholder_substitution title_laravel (u "<text>") (u "title2")
              (u "</text>")) as (v & Hr & _ & H2 & _).
  - done.
  - apply (bool_decide_unpack _). by vm_compute.
  - intros k Hk. apply marker_match_no_brace; [|done].
    apply (bool_decide_unpack _). by vm_compute.
  - exists v. split; [exact Hr|]. intros H. rewrite (H2 H). by vm_compute.
Defined.

(** C5: only the first three segments reach the document.  In a template
    with the three markers, the text around them having no opening brace,
    the document is that text with the first, the second and the third
    segment in place of [title1], [title2] and [title3], each as it is and
    with nothing added to mark what was left out.  For any template the
    document is the template filled from the first three segments alone,
    and two titles that agree on their first three segments give the same
    document, whatever comes after in either. *)
Theorem overflow_dropped (title : str) :
  (∀ t0 t1 t2 t3 : str,
     lbrace ∉ t0 → lbrace ∉ t1 → lbrace ∉ t2 → lbrace ∉ t3 →
     svg (t0 ++ marker (u "title1") ++ t1 ++ marker (u "title2") ++ t2
             ++ marker (u "title3") ++ t3) title
     = t0 ++ segment (lines title) 0 ++ t1 ++ segment (lines title) 1 ++ t2
          ++ segment (lines title) 2 ++ t3)
  ∧ (∀ tpl, svg tpl title
            = replace_markers (replacer (data (take 3 (lines title)))) tpl)
  ∧ replacer (data (lines title)) (u "title3") = segment (lines title) 2
  ∧ (∀ tpl title', take 3 (lines title') = take 3 (lines title) →
                   svg tpl title' = svg tpl title).
Proof.
  assert (∀ f t s, lbrace ∉ t →
            replace_markers f (t ++ s) = t ++ replace_markers f s) as Htext.
  { intros f t s Ht. apply replace_markers_text.
    intros k Hk. by apply marker_match_no_brace. }
  split; [|split; [|split]].
  - intros t0 t1 t2 t3 H0 H1 H2 H3. unfold svg.
    assert (∀ name s, name ≠ [] → bool_decide (rbrace ∉ name) = true →
              replace_markers (replacer (data (lines title)))
                (marker name ++ s)
              = replacer (data (lines title)) name
                ++ replace_markers (replacer (data (lines title))) s) as Hm.
    { intros name s Hne Hr. apply replace_markers_marker; [done|].
      by apply bool_decide_eq_true in Hr. }
    rewrite (Htext _ t0) by done.
    rewrite (Hm (u "title1")), replacer_title1 by done.
    rewrite (Htext _ t1) by done.
    rewrite (Hm (u "title2")), replacer_title2 by done.
    rewrite (Htext _ t2) by done.
    rewrite (Hm (u "title3")), replacer_title3 by done.
    rewrite <- (app_nil_r t3) at 1. rewrite Htext by done.
    by rewrite app_nil_r.
  - intros tpl. unfold svg. by rewrite data_take.
  - apply replacer_title3.
  - intros tpl title' H. unfold svg.
    by rewrite <- (data_take (lines title')), H, data_take.
Qed.

Lemma overflow_dropped_witness :
  let t1 := u "The quick brown fox jumps over the lazy dog and keeps running through the forest until night falls" in
  let t2 := u "The quick brown fox jumps over the lazy dog and keeps running through the forest until night comes again" in
  length (lines t1) = 4%nat
  ∧ svg (u "<svg><text>" ++ marker (u "title1") ++ u "</text><text>"
           ++ marker (u "title2") ++ u "</text><text>"
           ++ marker (u "title3") ++ u "</text></svg>") t1
    = u "<svg><text>" ++ segment (lines t1) 0 ++ u "</text><text>"
        ++ segment (lines t1) 1 ++ u "</text><text>"
        ++ segment (lines t1) 2 ++ u "</text></svg>"
  ∧ segment (lines t1) 0 = u "The quick brown fox jumps over"
  ∧ segment (lines t1) 1 = u "the lazy dog and keeps running"
  ∧ segment (lines t1) 2 = u "through the forest until night"
  ∧ svg template3 t2 = svg template3 t1.
Proof.
  intros t1 t2. split; [by vm_compute|].
  split; [|split; [by vm_compute|split; [by vm_compute|split;
                                                         [by vm_compute|]]]].
  - apply (proj1 (overflow_dropped t1));
      apply (bool_decide_unpack _); by vm_compute.
  - apply (proj2 (proj2 (proj2 (overflow_dropped t1))) template3 t2).
    by vm_compute.
Defined.

(** ** Blank titles *)

(** C8, as stated, fails: with a blank title and no file at the output path,
    the call still ends in an error when the directory cannot be made. *)
Lemma blank_title_mkdir_error :
  Forall (λ c, is_space c = true) (u "   ")
  ∧ existsSync empty_world (u "og/post.png") = false
  ∧ (genOg env_readonly (u "   ") (u "og/post.png") empty_world).1
    = Thrown (EACCES (u "og")).
Proof. split; [by repeat constructor | by vm_compute]. Qed.

(** C8, amended: an empty or white-space-only title gives no segment, so each
    of [title1], [title2], [title3] is replaced by the empty string, and the
    call does what it does for the empty title; where no file exists at the
    output path and the directories could be made, it returns normally. *)
Theorem blank_title (E : Env) (title output : str) (w : World) :
  Forall (λ c, is_space c = true) title →
  lines title = []
  ∧ (∀ name, name ∈ title_names → replacer (data (lines title)) name = [])
  ∧ genOg E title output w = genOg E [] output w
  ∧ (existsSync w output = false →
     (mkdirSync E (files w) (dirname output)).1 = None →
     (genOg E title output w).1 = Returned).
Proof.
  intros Hblank.
  assert (lines title = []) as Hl.
  { unfold lines, trim. by rewrite trim_start_spaces. }
  split; [done|]. split; [|split].
  - rewrite Hl. unfold title_names. intros name Hn.
    rewrite !elem_of_cons in Hn.
    destruct Hn as [->|[->|[->|Hn]]]; [done..|by apply elem_of_nil in Hn].
  - unfold genOg, svg. by rewrite Hl.
  - intros Hex Hmk.
    destruct (genOg E title output w).1 as [|e] eqn:Hg; [done|].
    apply genOg_thrown in Hg as [_ Hg]. congruence.
Qed.

Lemma blank_title_witness :
  lines (u "   ") = []
  ∧ svg template3 (u "   ")
    = u "<svg><text></text><text></text><text></text></svg>"
  ∧ (genOg env_ok (u "   ") (u "og/post.png") empty_world).1 = Returned.
Proof.
  destruct (blank_title env_ok (u "   ") (u "og/post.png") empty_world)
    as (Hl & _ & _ & Hr).
  - by repeat constructor.
  - split; [exact Hl|]. split; [by vm_compute|].
    apply Hr; by vm_compute.
Defined.

(** ** Word wrap *)

Section Words.
Open Scope nat_scope.

Lemma words_nonspace_cons (c : char) (s : str) :
  is_space c = false → ∃ w ws, words (c :: s) = w :: ws.
Proof.
  intros Hc. cbn [words]. rewrite Hc.
  destruct s as [|c' s']; [eauto|].
  destruct (is_space c'); [eauto|].
  destruct (words (c' :: s')); eauto.
Qed.

(** A white-space code unit separates the words on its two sides. *)
Lemma words_app_space (a b : str) (c : char) :
  is_space c = true → words (a ++ c :: b) = words a ++ words b.
Proof.
  intros Hc. induction a as [|x a IH].
  - simpl. by rewrite Hc.
  - cbn [app]. cbn [words]. destruct (is_space x) eqn:Hx; [done|].
    destruct a as [|y a'].
    + cbn [app] in *. rewrite Hc, IH. done.
    + cbn [app] in *. destruct (is_space y) eqn:Hy.
      * by rewrite IH.
      * rewrite IH.
        destruct (words_nonspace_cons y a' Hy) as (w & ws & ->). done.
Qed.

Lemma words_filter_truthy (ls : list str) :
  concat (map words (List.filter truthy ls)) = concat (map words ls).
Proof.
  induction ls as [|l ls IH]; [done|]. cbn [List.filter].
  destruct l as [|c l]; simpl; [done|]. by rewrite IH.
Qed.

Lemma word_fits_mono (n k k' : nat) (s : str) :
  word_fits n k s = true → k ≤ k' → word_fits n k' s = true.
Proof.
  revert k k'. induction s as [|c s IH]; intros k k' H Hk; [done|].
  cbn [word_fits] in *. destruct (is_space c); [done|].
  destruct k as [|k]; [done|]. destruct k' as [|k']; [lia|].
  apply (IH k); [done | lia].
Qed.

Lemma word_fits_suffix (n : nat) (pre s : str) :
  word_fits n n (pre ++ s) = true → word_fits n n s = true.
Proof.
  assert (∀ k, k ≤ n → word_fits n k (pre ++ s) = true →
               word_fits n n s = true) as H; [|by apply H].
  induction pre as [|c pre IH]; intros k Hk H.
  - by apply (word_fits_mono n k).
  - cbn [app word_fits] in H. destruct (is_space c).
    + by apply (IH n).
    + destruct k as [|k]; [done|]. apply (IH k); [lia | done].
Qed.

(** The first word, when it fits, ends at a boundary. *)
Lemma word_fits_first (n k : nat) (s : str) :
  word_fits n k s = true →
  ∃ w tl, s = w ++ tl ∧ Forall (λ c, is_space c = false) w
          ∧ length w ≤ k ∧ at_boundary tl.
Proof.
  revert k. induction s as [|c s IH]; intros k H.
  - exists [], []. simpl. repeat split; (constructor || lia).
  - cbn [word_fits] in H. destruct (is_space c) eqn:Hc.
    + exists [], (c :: s). simpl. repeat split; (constructor || lia || done).
    + destruct k as [|k]; [done|].
      destruct (IH k H) as (w & tl & -> & Hw & Hl & Hb).
      exists (c :: w), tl. simpl. repeat split; [by constructor | lia | done].
Qed.

(** [word_fits] decides what its name says. *)
Lemma word_fits_words (n k : nat) (s : str) :
  word_fits n k s = true ↔
  match s with
  | [] => True
  | c :: _ =>
      if is_space c then Forall (λ w, length w ≤ n) (words s)
      else ∃ w ws, words s = w :: ws ∧ length w ≤ k
                   ∧ Forall (λ w, length w ≤ n) ws
  end.
Proof.
  revert k. induction s as [|c s IH]; intros k; [done|].
  cbn [word_fits words]. destruct (is_space c) eqn:Hc.
  - rewrite (IH n). destruct s as [|c' s']; [by split|].
    destruct (is_space c') eqn:Hc'; [done|].
    destruct (words_nonspace_cons c' s' Hc') as (w & ws & Hw).
    rewrite Hw, Forall_cons. split.
    + intros (w0 & ws0 & [= <- <-] & ? & ?). done.
    + intros [? ?]. eauto.
  - destruct k as [|k].
    + split; [done|]. intros (w & ws & Hw & Hl & _).
      destruct s as [|c' s']; [injection Hw as <- <-; simpl in Hl; lia|].
      destruct (is_space c'); [injection Hw as <- <-; simpl in Hl; lia|].
      destruct (words (c' :: s'));
        injection Hw as <- <-; simpl in Hl; lia.
    + rewrite (IH k). destruct s as [|c' s'].
      * split; [|done]. intros _. exists [c], [].
        repeat split; [simpl; lia | constructor].
      * destruct (is_space c') eqn:Hc'.
        -- split.
           ++ intros H. exists [c], (words (c' :: s')).
              repeat split; [simpl; lia | done].
           ++ by intros (w & ws & [= <- <-] & _ & ?).
        -- destruct (words_nonspace_cons c' s' Hc') as (w & ws & Hw).
           rewrite Hw. split.
           ++ intros (w0 & ws0 & [= <- <-] & ? & ?).
              exists (c :: w), ws. repeat split; [simpl; lia | done].
           ++ intros (w0 & ws0 & [= <- <-] & Hl & ?).
              exists w, ws. repeat split; [simpl in Hl; lia | done].
Qed.

Lemma no_long_word_fits (s : str) :
  no_long_word s ↔ word_fits 30 30 s = true.
Proof.
  unfold no_long_word. rewrite word_fits_words.
  destruct s as [|c s']; [by split|].
  destruct (is_space c) eqn:Hc; [done|].
  destruct (words_nonspace_cons c s' Hc) as (w & ws & Hw).
  rewrite Hw, Forall_cons. split.
  - intros [? ?]. eauto.
  - intros (w0 & ws0 & [= <- <-] & ? & ?). done.
Qed.

Lemma no_long_word_suffix (pre s : str) :
  no_long_word (pre ++ s) → no_long_word s.
Proof. rewrite !no_long_word_fits. apply word_fits_suffix. Qed.

Lemma no_long_word_match (s : str) :
  no_long_word s → is_Some (sep_match 30 s).
Proof.
  intros H%no_long_word_fits.
  destruct (word_fits_first _ _ _ H) as (w & tl & -> & Hw & Hl & Hb).
  apply (sep_match_complete 30 _ w tl); try done.
  eapply Forall_impl; [exact Hw|]. apply nonspace_is_dot.
Qed.
End Words.

Section Wrapping.
Open Scope nat_scope.

(** What the pattern matches is the longest line. *)
Lemma sep_match_longest_line (s cap rest : str) :
  sep_match 30 s = Some (cap, rest) → longest_line s cap rest.
Proof.
  intros Hm. split; [by apply sep_match_line|].
  intros cap' rest' (Hl & Hd & Hs).
  destruct Hs as [[-> ->]|(c & Hc & ->)].
  - eapply (sep_match_longest 30 _ _ _ cap' []); eauto; [|done].
    by rewrite app_nil_r.
  - by eapply (sep_match_longest 30 _ _ _ cap' (c :: rest')); eauto.
Qed.

(** A line leaves less than there was, unless there was nothing. *)
Lemma line_of_rest (s cap rest : str) :
  line_of s cap rest → s ≠ [] →
  length rest < length s ∧ ∃ pre, s = pre ++ rest.
Proof.
  intros (_ & _ & [[-> ->]|(c & _ & ->)]) Hs.
  - split; [destruct cap; [done | simpl; lia]|].
    exists cap. by rewrite app_nil_r.
  - split; [rewrite length_app; simpl; lia|].
    exists (cap ++ [c]). by rewrite <- app_assoc.
Qed.

(** The longest line is one line. *)
Lemma longest_line_unique (s cap1 rest1 cap2 rest2 : str) :
  longest_line s cap1 rest1 → longest_line s cap2 rest2 →
  cap1 = cap2 ∧ rest1 = rest2.
Proof.
  intros [L1 M1] [L2 M2].
  pose proof (M1 _ _ L2). pose proof (M2 _ _ L1).
  destruct L1 as (_ & _ & H1), L2 as (_ & _ & H2).
  destruct H1 as [[-> ->]|(c1 & _ & ->)], H2 as [[E ->]|(c2 & _ & E)].
  - done.
  - apply (f_equal length) in E. rewrite length_app in E. simpl in E. lia.
  - apply (f_equal length) in E. rewrite length_app in E. simpl in E. lia.
  - apply app_inj_1 in E as [-> [= _ ->]]; [done | lia].
Qed.

(** The wrap of a string is one list of lines. *)
Lemma Wrap_functional (s : str) (l1 l2 : list str) :
  Wrap s l1 → Wrap s l2 → l1 = l2.
Proof.
  intros W1. revert l2.
  induction W1 as [|s cap rest ls Hs HL _ IH]; intros l2 W2.
  - by inversion W2.
  - inversion W2 as [|s' cap' rest' ls' _ HL' W' ]; subst; [done|].
    destruct (longest_line_unique _ _ _ _ _ HL HL') as [-> ->].
    f_equal. by apply IH.
Qed.

Lemma Wrap_bound (s : str) (ls : list str) :
  Wrap s ls → Forall (λ l, length l ≤ 30) ls.
Proof.
  induction 1 as [|s cap rest ls _ [(Hl & _) _] _ IH]; constructor; done.
Qed.

(** The lines of a wrap have the words of the string, whole and in
    order. *)
Lemma Wrap_words (s : str) (ls : list str) :
  Wrap s ls → concat (map words ls) = words s.
Proof.
  induction 1 as [|s cap rest ls _ [(_ & _ & Hs) _] W IH]; [done|].
  cbn [map concat]. rewrite IH.
  destruct Hs as [[-> ->]|(c & Hc & ->)].
  - simpl. by rewrite app_nil_r.
  - by rewrite words_app_space.
Qed.

(** The loop, on a string without a long word, wraps it: between the
    lines it pushes nothing but empty strings. *)
Lemma split_loop_wrap (s : str) :
  no_long_word s →
  ∃ ls, Wrap s ls
        ∧ List.filter truthy (split_loop [] 0 s) = List.filter truthy ls.
Proof.
  remember (length s) as n eqn:Hn. revert s Hn.
  induction n as [n IH] using lt_wf_ind. intros s -> Hfit.
  destruct (decide (s = [])) as [->|Hs].
  { exists []. split; [constructor | done]. }
  destruct (no_long_word_match s Hfit) as [[cap rest] Hm].
  pose proof (sep_match_longest_line _ _ _ Hm) as HL.
  destruct (line_of_rest _ _ _ (proj1 HL) Hs) as [Hlt [pre Hpre]].
  destruct (IH (length rest) Hlt rest eq_refl) as (ls & W & Hf).
  { rewrite Hpre in Hfit. by eapply no_long_word_suffix. }
  exists (cap :: ls). split; [by econstructor|].
  rewrite (split_loop_match [] s cap rest) by done.
  cbn [rev List.filter truthy]. by rewrite Hf.
Qed.

Lemma regexp_split_wrap (s : str) :
  no_long_word s →
  ∃ ls, Wrap s ls
        ∧ List.filter truthy (regexp_split s) = List.filter truthy ls.
Proof.
  intros Hfit. destruct s as [|c s'].
  - exists []. split; [constructor | done].
  - by apply split_loop_wrap.
Qed.
End Wrapping.

(** C2, as stated, fails.  A title that is one word of 40 code units is cut
    inside the word, into 10 and 30.  And on a title of short words the
    first line ends after 22 code units, at the last boundary within the
    limit, where the wrap as the specification words it goes on to the first
    boundary after the limit. *)
Lemma word_wrap_differs :
  words title_one_word = [title_one_word]
  ∧ lines title_one_word = [repeat 97 10; repeat 97 30]
  ∧ lines title_laravel
    = [u "Why You Don't Need the"; u "Repository Pattern in Laravel"]
  ∧ spec_soft_wrap (trim title_laravel)
    = [u "Why You Don't Need the Repository"; u "Pattern in Laravel"].
Proof. by vm_compute. Qed.

(** C2, amended: for every title in whose trimming no word has more than 30
    code units, the segmentation is the greedy word wrap with the hard limit
    30: each line is the longest run of at most 30 code units, none a line
    terminator, that ends before a white-space code unit or at the end, and
    that white-space code unit is dropped; empty lines are left out.  The
    breaks are at white space only: the segments have the words of the
    trimmed title, whole and in order, and each has between 1 and 30 code
    units. *)
Theorem title_word_wrap (title : str) :
  no_long_word (trim title) →
  ∃ ls, Wrap (trim title) ls
        ∧ (∀ ls', Wrap (trim title) ls' → ls' = ls)
        ∧ lines title = List.filter truthy ls
        ∧ Forall (λ l, 1 ≤ length l ≤ 30)%nat (lines title)
        ∧ concat (map words (lines title)) = words (trim title).
Proof.
  intros Hfit. destruct (regexp_split_wrap _ Hfit) as (ls & W & Hf).
  exists ls. unfold lines. rewrite Hf.
  split; [done|]. split; [|split; [done|split]].
  - intros ls' W'. by eapply Wrap_functional.
  - apply Forall_forall. intros l Hl.
    apply list_elem_of_In, filter_In in Hl as [Hl Ht].
    apply list_elem_of_In in Hl.
    pose proof (proj1 (Forall_forall _ _) (Wrap_bound _ _ W) l Hl).
    destruct l; [done | simpl in *; lia].
  - rewrite words_filter_truthy. by apply Wrap_words.
Qed.

Lemma title_word_wrap_witness :
  ∃ ls, Wrap (trim title_laravel) ls
        ∧ lines title_laravel = List.filter truthy ls
        ∧ concat (map words (lines title_laravel))
          = words (trim title_laravel).
Proof.
  destruct (title_word_wrap title_laravel) as (ls & W & _ & Hl & _ & Hw).
  - apply (bool_decide_unpack _). by vm_compute.
  - exists ls. auto.
Defined.

(** * Further properties *)

(** ** Segmentation, for every title *)

Section Pieces.
Open Scope nat_scope.

Lemma visible_app (a b : str) : visible (a ++ b) = visible a ++ visible b.
Proof. apply List.filter_app. Qed.

Lemma visible_rev (a : str) : visible (rev a) = rev (visible a).
Proof.
  induction a as [|c a IH]; [done|]. cbn [rev].
  rewrite visible_app, IH. unfold visible at 2 3. cbn [List.filter].
  by destruct (negb (is_space c)); cbn [rev app]; rewrite ?app_nil_r.
Qed.

Lemma visible_trim_start (s : str) : visible (trim_start s) = visible s.
Proof.
  induction s as [|c s IH]; [done|]. cbn [trim_start].
  destruct (is_space c) eqn:Hc; [|done].
  unfold visible at 2. cbn [List.filter]. by rewrite Hc.
Qed.

Lemma visible_trim (s : str) : visible (trim s) = visible s.
Proof.
  unfold trim, trim_end.
  by rewrite visible_rev, visible_trim_start, <- visible_rev,
       rev_involutive, visible_trim_start.
Qed.

Lemma concat_filter_truthy (ls : list str) :
  concat (List.filter truthy ls) = concat ls.
Proof.
  induction ls as [|l ls IH]; [done|]. cbn [List.filter].
  destruct l; simpl; [done|]. by rewrite IH.
Qed.

(** Where the pattern does not match, the code unit is not white space. *)
Lemma sep_match_None_head (c : char) (s : str) :
  sep_match 30 (c :: s) = None → is_space c = false.
Proof.
  intros Hm. destruct (is_space c) eqn:Hc; [|done].
  destruct (sep_match_complete 30 (c :: s) [] (c :: s)) as [? Hs].
  - done.
  - simpl. lia.
  - constructor.
  - exact Hc.
  - congruence.
Qed.

(** The pieces of the loop are the input without the separators. *)
Lemma split_loop_visible (s pending : str) :
  visible (concat (split_loop pending 0 s)) = visible (rev pending ++ s).
Proof.
  remember (length s) as n eqn:Hn. revert s pending Hn.
  induction n as [n IH] using lt_wf_ind. intros s pending ->.
  destruct s as [|c s'].
  { simpl. by rewrite app_nil_r. }
  destruct (sep_match 30 (c :: s')) as [[cap rest]|] eqn:Hm.
  - rewrite (split_loop_match pending _ cap rest) by done.
    pose proof (sep_match_longest_line _ _ _ Hm) as [HL _].
    destruct (line_of_rest _ _ _ HL) as [Hlt _]; [done|].
    cbn [concat]. rewrite !visible_app.
    rewrite (IH (length rest) Hlt rest [] eq_refl). cbn [rev app].
    f_equal. destruct HL as (_ & _ & [[-> ->]|(c0 & Hc0 & ->)]).
    + simpl. by rewrite app_nil_r.
    + rewrite (visible_app cap). f_equal.
      unfold visible. cbn [List.filter]. by rewrite Hc0.
  - rewrite split_loop_no_match by done.
    rewrite (IH (length s') ltac:(simpl; lia) s' (c :: pending) eq_refl).
    cbn [rev]. by rewrite <- app_assoc.
Qed.

(** No piece of the loop has a line terminator in it. *)
Lemma split_loop_dots (s pending : str) :
  Forall (λ c, is_space c = false) pending →
  Forall (Forall (λ c, is_dot c = true)) (split_loop pending 0 s).
Proof.
  remember (length s) as n eqn:Hn. revert s pending Hn.
  induction n as [n IH] using lt_wf_ind. intros s pending -> Hp.
  assert (Forall (λ c, is_dot c = true) (rev pending)) as Hrev.
  { apply Forall_rev. eapply Forall_impl; [exact Hp|]. apply nonspace_is_dot. }
  destruct s as [|c s'].
  { simpl. by constructor. }
  destruct (sep_match 30 (c :: s')) as [[cap rest]|] eqn:Hm.
  - rewrite (split_loop_match pending _ cap rest) by done.
    pose proof (sep_match_longest_line _ _ _ Hm) as [HL _].
    destruct (line_of_rest _ _ _ HL) as [Hlt _]; [done|].
    constructor; [done|]. constructor; [apply HL|].
    by apply (IH (length rest) Hlt).
  - rewrite split_loop_no_match by done.
    apply (IH (length s')); [simpl; lia | done |].
    constructor; [by eapply sep_match_None_head | done].
Qed.

(** A word longer than the limit: the loop steps over all but its last 30
    code units, which the pattern then matches. *)
Lemma split_loop_long_word (w pending : str) :
  Forall (λ c, is_space c = false) w → 30 ≤ length w →
  split_loop pending 0 w
  = [rev pending ++ take (length w - 30) w; drop (length w - 30) w; []].
Proof.
  intros Hw. revert pending. induction Hw as [|c w Hc Hw IH]; intros pending Hl.
  { simpl in Hl. lia. }
  destruct (decide (length (c :: w) = 30)) as [H30|Hne].
  - rewrite (split_loop_match pending _ (c :: w) []).
    + rewrite H30. simpl. by rewrite app_nil_r.
    + done.
    + apply sep_match_word_end; [by constructor | lia].
  - simpl in Hl, Hne. rewrite split_loop_no_match.
    + rewrite IH by lia. cbn [rev length].
      replace (S (length w) - 30) with (S (length w - 30)) by lia.
      cbn [take drop]. by rewrite <- app_assoc.
    + apply sep_match_long_word; [by constructor | simpl; lia].
Qed.

Lemma trim_start_pad (pad s : str) :
  Forall (λ c, is_space c = true) pad → trim_start (pad ++ s) = trim_start s.
Proof. induction 1 as [|c pad Hc _ IH]; [done|]. simpl. by rewrite Hc. Qed.

Lemma trim_end_pad (pad s : str) :
  Forall (λ c, is_space c = true) pad → trim_end (s ++ pad) = trim_end s.
Proof.
  intros Hp. unfold trim_end. rewrite rev_app_distr.
  by rewrite trim_start_pad by by apply Forall_rev.
Qed.

Lemma trim_start_app_pad (pad s : str) :
  Forall (λ c, is_space c = true) pad →
  trim_end (trim_start (s ++ pad)) = trim_end (trim_start s).
Proof.
  intros Hp. induction s as [|c s IH].
  - simpl. by rewrite trim_start_spaces.
  - cbn [app trim_start]. destruct (is_space c); [done|].
    change (c :: s ++ pad) with ((c :: s) ++ pad). by apply trim_end_pad.
Qed.
End Pieces.

(** X1: whatever the title, segmentation loses and moves nothing but white
    space: the segments, read one after the other, have the code units of
    the title that are not white space, in the same order. *)
Theorem lines_keep_visible (title : str) :
  visible (concat (lines title)) = visible title.
Proof.
  unfold lines. rewrite concat_filter_truthy, <- (visible_trim title).
  unfold regexp_split. destruct (trim title) as [|c s]; [done|].
  apply (split_loop_visible (c :: s) []).
Qed.

(** X2: whatever the title, no segment is empty and no segment has a line
    terminator in it, so each is one line of text. *)
Theorem lines_are_lines (title : str) :
  Forall (λ l, l ≠ [] ∧ Forall (λ c, is_line_terminator c = false) l)
         (lines title).
Proof.
  unfold lines. apply Forall_forall. intros l Hl.
  apply list_elem_of_In, filter_In in Hl as [Hl Ht]. split.
  - by destruct l.
  - assert (Forall (Forall (λ c, is_dot c = true))
              (regexp_split (trim title))) as Hd.
    { unfold regexp_split. destruct (trim title) as [|c s]; [constructor|].
      apply split_loop_dots. constructor. }
    apply list_elem_of_In in Hl.
    eapply Forall_impl; [exact (proj1 (Forall_forall _ _) Hd l Hl)|].
    intros c. unfold is_dot. by destruct (is_line_terminator c).
Qed.

(** X3: white space before and after the title does not count: a title
    padded with white space on either side has the segments of the title. *)
Theorem lines_ignore_padding (before title after : str) :
  Forall (λ c, is_space c = true) before →
  Forall (λ c, is_space c = true) after →
  lines (before ++ title ++ after) = lines title.
Proof.
  intros Hb Ha. unfold lines, trim.
  by rewrite trim_start_pad, trim_start_app_pad.
Qed.

Lemma lines_ignore_padding_witness :
  lines (u "  " ++ title_laravel ++ u "   ") = lines title_laravel.
Proof.
  apply (lines_ignore_padding (u "  ") title_laravel (u "   "));
    vm_compute; repeat constructor.
Defined.

(** X4: a title that is one word of more than 30 code units is cut in two:
    the last 30 code units are the second segment, what comes before them
    the first. *)
Theorem lines_long_word (w : str) :
  Forall (λ c, is_space c = false) w → (30 < length w)%nat →
  lines w = [take (length w - 30) w; drop (length w - 30) w].
Proof.
  intros Hw Hl. unfold lines. rewrite trim_no_space by done.
  unfold regexp_split.
  assert (split_loop [] 0 w
          = [take (length w - 30) w; drop (length w - 30) w; []]) as Hs.
  { rewrite split_loop_long_word by (done || lia). done. }
  destruct w as [|c w']; [simpl in Hl; lia|]. rewrite Hs.
  assert (length (take (length (c :: w') - 30) (c :: w')) ≠ 0%nat) as H1.
  { rewrite length_take. simpl in *. lia. }
  assert (length (drop (length (c :: w') - 30) (c :: w')) ≠ 0%nat) as H2.
  { rewrite length_drop. simpl in *. lia. }
  cbn [List.filter].
  destruct (take _ _); [done|]. destruct (drop _ _); [done|]. done.
Qed.

Lemma lines_long_word_witness :
  lines title_one_word = [repeat 97 10; repeat 97 30].
Proof.
  apply (lines_long_word title_one_word).
  - vm_compute. repeat constructor.
  - vm_compute. lia.
Defined.

(** ** What a call does to the world *)

Section Frame.
Variable E : Env.



End Frame.

(** X5: a call that finds the output path free, can make the directories
    and gets an image from sharp returns normally; after it every directory
    above the output path exists, the output path holds the image, and the
    console has the one line [Generating <output>] more. *)
Theorem genOg_success (E : Env) (title output : str) (w : World)
  (fs : gmap str entry) (png : list N) :
  existsSync w output = false →
  mkdirSync E (files w) (dirname output) = (None, fs) →
  rasterize E (svg (ogSvg E) title) = inr png →
  write_denied E output = false →
  let r := genOg E title output w in
  r.1 = Returned
  ∧ (∀ d, d ∈ chain (dirname output) → lookup_path r.2 d = Some Dir)
  ∧ lookup_path r.2 (dirname output) = Some Dir
  ∧ lookup_path r.2 output = Some (File png)
  ∧ console r.2 = console w ++ [Log_info (u "Generating " ++ output)].
Proof.
  intros Hex Hmk Hr Hw r. subst r.
  rewrite (genOg_after_mkdir E _ _ _ fs) by done. cbv zeta.
  rewrite Hr, Hw. cbn [fst snd console].
  assert (∀ d, d ∈ chain (dirname output) →
               stat_entry (write_file output png fs) d = Some Dir) as Hch.
  { intros d Hd. rewrite (stat_entry_raw fs).
    - by eapply mkdirSync_ok.
    - apply write_file_other. intros ->. by apply output_not_in_chain in Hd. }
  apply existsSync_false in Hex as [Hroot _].
  repeat split.
  - intros d Hd. unfold lookup_path. cbn [files].
    apply chain_up_elem in Hd as Hr'. destruct Hr' as [-> _]. auto.
  - unfold lookup_path. cbn [files].
    destruct (is_root (dirname output)) eqn:Hd; [done|].
    by apply Hch, dirname_in_chain.
  - unfold lookup_path. rewrite Hroot. cbn [files].
    apply write_file_stat.
Qed.

Lemma genOg_success_witness :
  let r := genOg env_ok (u "Hello") (u "src/public/og/post.png")
             empty_world in
  r.1 = Returned
  ∧ (∀ d, d ∈ chain (dirname (u "src/public/og/post.png")) →
          lookup_path r.2 d = Some Dir)
  ∧ lookup_path r.2 (dirname (u "src/public/og/post.png")) = Some Dir
  ∧ lookup_path r.2 (u "src/public/og/post.png")
    = Some (File [137; 80; 78; 71])
  ∧ console r.2
    = console empty_world
      ++ [Log_info (u "Generating " ++ u "src/public/og/post.png")].
Proof.
  refine (genOg_success env_ok (u "Hello") (u "src/public/og/post.png")
            empty_world _ _ _ _ _ _).
  - vm_compute. reflexivity.
  - vm_compute. reflexivity.
  - vm_compute. reflexivity.
  - reflexivity.
Defined.



(** ** The names derived from a page's path *)

Section PagePaths.
Open Scope nat_scope.

Lemma replace_at_end_elem (m : str → bool) (r s : str) (x : char) :
  x ∈ replace_at_end m r s → x ∈ s ∨ x ∈ r.
Proof.
  induction s as [|c s IH]; simpl; destruct (m _); auto.
  rewrite !elem_of_cons. intros [->|H]; [auto|]. destruct (IH H); auto.
Qed.

(** The first match is where the pattern first holds. *)
Lemma replace_at_end_app (m : str → bool) (r q t : str) :
  (∀ i, i < length q → m (drop i (q ++ t)) = false) → m t = true →
  replace_at_end m r (q ++ t) = q ++ r.
Proof.
  intros Hq Ht. induction q as [|c q IH].
  - simpl. destruct t; simpl; by rewrite Ht.
  - pose proof (Hq 0 ltac:(simpl; lia)) as H0. cbn [drop app] in H0.
    cbn [app replace_at_end]. rewrite H0. f_equal. apply IH.
    intros i Hi. apply (Hq (S i)). simpl. lia.
Qed.

Lemma replace_at_end_none (m : str → bool) (r s : str) :
  (∀ i, i ≤ length s → m (drop i s) = false) → replace_at_end m r s = s.
Proof.
  induction s as [|c s IH]; intros H.
  - pose proof (H 0 ltac:(simpl; lia)) as H0. cbn [drop] in H0.
    simpl. by rewrite H0.
  - pose proof (H 0 ltac:(simpl; lia)) as H0. cbn [drop] in H0.
    cbn [replace_at_end]. rewrite H0. f_equal. apply IH.
    intros i Hi. apply (H (S i)). simpl. lia.
Qed.

Lemma md_match_true (s : str) : md_match s = true ↔ s = u ".md".
Proof. unfold md_match. by rewrite bool_decide_eq_true. Qed.

Lemma starts_with_app (s p : str) :
  starts_with s p = true → s = p ++ drop (length p) s.
Proof.
  revert s. induction p as [|a p IH]; intros s; [done|].
  destruct s as [|b s]; [done|]. cbn [starts_with].
  intros [Hab Hs]%andb_true_iff. apply N.eqb_eq in Hab as ->.
  cbn [length drop app]. f_equal. by apply IH.
Qed.

Lemma index_md_match_true (s : str) :
  index_md_match s = true → s = u "index.md" ∨ s = u ".md".
Proof.
  unfold index_md_match. intros [[Hs Hm]%andb_true_iff|Hm]%orb_true_iff.
  - left. apply starts_with_app in Hs. apply md_match_true in Hm.
    change (length (u "index")) with 5 in Hs. by rewrite Hs, Hm.
  - right. by apply md_match_true.
Qed.

(** Before the end of [q] nothing of [q ++ t] is as short as [t]. *)
Lemma drop_app_longer (q t : str) (i : nat) :
  i < length q → length t < length (drop i (q ++ t)).
Proof. intros Hi. rewrite length_drop, length_app. lia. Qed.

Lemma slashes_to_dashes_no_slash (s : str) : slash ∉ slashes_to_dashes s.
Proof.
  unfold slashes_to_dashes. induction s as [|c s IH]; cbn [map].
  - apply not_elem_of_nil.
  - apply not_elem_of_cons. split; [|done].
    destruct (c =? slash)%N eqn:Hc; [done|]. apply N.eqb_neq in Hc. congruence.
Qed.

Lemma slashes_to_dashes_inj (p1 p2 : str) :
  dash ∉ p1 → dash ∉ p2 →
  slashes_to_dashes p1 = slashes_to_dashes p2 → p1 = p2.
Proof.
  unfold slashes_to_dashes. revert p2.
  induction p1 as [|a p1 IH]; intros [|b p2] H1 H2 H; try done.
  apply not_elem_of_cons in H1 as [Ha H1], H2 as [Hb H2].
  cbn [map] in H. injection H as Hab H. f_equal; [|by apply IH].
  destruct (a =? slash)%N eqn:Ea, (b =? slash)%N eqn:Eb;
    try apply N.eqb_eq in Ea; try apply N.eqb_eq in Eb; congruence.
Qed.

Lemma ogName_md (q : str) :
  ogName (q ++ u ".md") = slashes_to_dashes q ++ u ".png".
Proof.
  unfold ogName.
  assert (slashes_to_dashes (q ++ u ".md") = slashes_to_dashes q ++ u ".md")
    as -> by (unfold slashes_to_dashes; by rewrite map_app).
  apply replace_at_end_app; [|done].
  intros i Hi. apply bool_decide_eq_false. intros H.
  pose proof (drop_app_longer _ (u ".md") i Hi) as Hl.
  rewrite H in Hl. simpl in Hl. lia.
Qed.
End PagePaths.

(** X7: the name of a page's image has no slash in it, whatever the page's
    path: every image is a file of the one directory [og]. *)
Theorem ogName_flat (filePath : str) : slash ∉ ogName filePath.
Proof.
  intros H. apply replace_at_end_elem in H as [H|H].
  - by apply slashes_to_dashes_no_slash in H.
  - revert H. apply (bool_decide_unpack _). by vm_compute.
Qed.

(** X8: for a page [q.md] the image is named after [q] with dashes for
    slashes and [.png] for [.md]; pages whose paths have no dash in them
    get different names. *)
Theorem ogName_of_page :
  (∀ q, ogName (q ++ u ".md") = slashes_to_dashes q ++ u ".png")
  ∧ (∀ q1 q2, dash ∉ q1 → dash ∉ q2 →
              ogName (q1 ++ u ".md") = ogName (q2 ++ u ".md") → q1 = q2).
Proof.
  split; [apply ogName_md|].
  intros q1 q2 H1 H2 H. rewrite !ogName_md in H.
  apply app_inv_tail in H. by apply slashes_to_dashes_inj.
Qed.

Lemma ogName_of_page_witness :
  ogName (u "blog/how-i-choose.md") = u "blog-how-i-choose.png"
  ∧ (ogName (u "blog/a" ++ u ".md") = ogName (u "blog/a" ++ u ".md") →
     u "blog/a" = u "blog/a").
Proof.
  split.
  - exact (proj1 ogName_of_page (u "blog/how-i-choose")).
  - apply (proj2 ogName_of_page (u "blog/a") (u "blog/a"));
      apply (bool_decide_unpack _); by vm_compute.
Defined.

(** X9: the canonical path of a page: a path that ends in [index.md] loses
    these eight code units, wherever the name [index] began (so [reindex.md]
    becomes [re]); any other path that ends in [.md] loses [.md]; a path
    that does not end in [.md] stays as it is. *)
Theorem page_path_cases :
  (∀ q, page_path (q ++ u "index.md") = q)
  ∧ (∀ q, ¬ (u "index" `suffix_of` q) → page_path (q ++ u ".md") = q)
  ∧ (∀ p, ¬ (u ".md" `suffix_of` p) → page_path p = p).
Proof.
  unfold page_path. repeat split.
  - intros q. rewrite <- (app_nil_r q) at 2.
    apply replace_at_end_app; [|done].
    intros i Hi. destruct (index_md_match _) eqn:Hm; [|done].
    pose proof (drop_app_longer q (u "index.md") i Hi) as Hl.
    apply index_md_match_true in Hm as [Hm|Hm];
      rewrite Hm in Hl; simpl in Hl; lia.
  - intros q Hq. rewrite <- (app_nil_r q) at 2.
    apply replace_at_end_app; [|done].
    intros i Hi. destruct (index_md_match _) eqn:Hm; [|done].
    pose proof (drop_app_longer q (u ".md") i Hi) as Hl.
    apply index_md_match_true in Hm as [Hm|Hm].
    + destruct Hq. exists (take i q).
      rewrite drop_app_le in Hm by lia.
      change (u "index.md") with (u "index" ++ u ".md") in Hm.
      apply app_inv_tail in Hm. by rewrite <- Hm, take_drop.
    + rewrite Hm in Hl. simpl in Hl. lia.
  - intros p Hp. apply replace_at_end_none.
    intros i Hi. destruct (index_md_match _) eqn:Hm; [|done].
    destruct Hp. apply index_md_match_true in Hm as [Hm|Hm].
    + exists (take i p ++ u "index").
      rewrite <- app_assoc. change (u "index" ++ u ".md") with (u "index.md").
      by rewrite <- Hm, take_drop.
    + exists (take i p). by rewrite <- Hm, take_drop.
Qed.

Lemma page_path_cases_witness :
  page_path (u "blog/post.md") = u "blog/post"
  ∧ page_path (u "about.html") = u "about.html"
  ∧ page_path (u "reindex.md") = u "re".
Proof.
  destruct page_path_cases as (H1 & H2 & H3). split; [|split].
  - apply (H2 (u "blog/post")). apply (bool_decide_unpack _). by vm_compute.
  - apply (H3 (u "about.html")). apply (bool_decide_unpack _). by vm_compute.
  - apply (H1 (u "re")).
Defined.

(** ** The page hook *)

Section Hook.
Variables (U : Ufo) (E : Env) (siteConfig : SiteConfig).

(** The frontmatter the hook works on, once the layout is settled. *)
Lemma transformPageData_shape (pageData : PageData) (w : World) :
  let fm1 :=
    if starts_with (filePath pageData) (u "blog/")
    then set_layout (Some (u "blog-post")) (frontmatter pageData)
    else frontmatter pageData in
  let g := genOg_any E (og_title siteConfig pageData)
             (og_output U siteConfig (filePath pageData)) w in
  transformPageData U E siteConfig pageData w
  = (g.1,
     set_frontmatter
       (set_head (default [] (fm_head (frontmatter pageData))
                  ++ head_before U siteConfig pageData
                  ++ match g.1 with
                     | Returned => head_after U pageData
                     | Thrown _ => []
                     end) fm1)
       pageData,
     g.2).
Proof.
  cbv zeta. unfold transformPageData.
  assert (fm_head (if starts_with (filePath pageData) (u "blog/")
                   then set_layout (Some (u "blog-post"))
                          (frontmatter pageData)
                   else frontmatter pageData)
          = fm_head (frontmatter pageData)) as -> by by destruct (starts_with _ _).
  destruct (genOg_any E _ _ w) as [[|e] w']; cbn [fst snd].
  - by rewrite <- app_assoc.
  - by rewrite app_nil_r.
Qed.


End Hook.





(** X12: what the layout component shows after the hook: a page under
    [blog/] is shown by [BlogPost] alone, whatever layout its frontmatter
    asked for; for any other page the hook changes nothing of what is
    shown. *)
Theorem hook_then_layout (U : Ufo) (E : Env) (siteConfig : SiteConfig)
  (pageData : PageData) (w : World) :
  let page' := (transformPageData U E siteConfig pageData w).1.2 in
  (starts_with (filePath pageData) (u "blog/") = true →
   main_children page' = [BlogPost])
  ∧ (starts_with (filePath pageData) (u "blog/") = false →
     main_children page' = main_children pageData).
Proof.
  cbv zeta. rewrite transformPageData_shape. cbv zeta. cbn [fst snd].
  split; intros ->; done.
Qed.

Lemma hook_then_layout_witness :
  let U := mkUfo (λ base l, base ++ concat (map (λ x, slash :: x) l)) id in
  let sc := mkSiteConfig (u "src") (u "Tech Emiretus") (u "") in
  let page := mkPageData (u "blog/index.md") (u "Blog") (u "")
                (mkFrontmatter YAbsent YAbsent (Some (u "blog")) None) in
  main_children page = [BlogIndex]
  ∧ main_children (transformPageData U env_ok sc page empty_world).1.2
    = [BlogPost].
Proof.
  intros U sc page. split; [by vm_compute|].
  apply (proj1 (hook_then_layout U env_ok sc page empty_world)).
  by vm_compute.
Defined.

(** X13: what [<main>] shows: always exactly one of [BlogIndex], [BlogPost],
    [NotFound] and [Content]; and before it [Home] as well when the layout
    is [home], because [Home] has a [v-if] of its own: the home page shows
    [Home] and then the page's own content ([NotFound] when its title is
    [404]). *)
Theorem main_children_cases (page : PageData) :
  (∃ c, c ∈ [BlogIndex; BlogPost; NotFound; Content]
        ∧ main_children page
          = if layout_is (frontmatter page) "home" then [Home; c] else [c])
  ∧ (layout (frontmatter page) = Some (u "home") →
     main_children page
     = [Home; if bool_decide (pageTitle page = u "404")
              then NotFound else Content]).
Proof.
  unfold main_children. split.
  - destruct (layout_is (frontmatter page) "blog") eqn:H1;
      [|destruct (isBlogPost (frontmatter page)) eqn:H2;
        [|destruct (bool_decide (pageTitle page = u "404")) eqn:H3]];
      eexists; (split; [|by destruct (layout_is (frontmatter page) "home")]);
      set_solver.
  - intros Hl. unfold isBlogPost, layout_is. rewrite Hl.
    by destruct (bool_decide (pageTitle page = u "404")).
Qed.

Lemma main_children_cases_witness :
  main_children (mkPageData (u "index.md") (u "Tech Emiretus") (u "")
                   (mkFrontmatter YAbsent YAbsent (Some (u "home")) None))
  = [Home; Content].
Proof.
  apply (proj2 (main_children_cases
                  (mkPageData (u "index.md") (u "Tech Emiretus") (u "")
                     (mkFrontmatter YAbsent YAbsent (Some (u "home")) None)))).
  reflexivity.
Defined.

(** ** The dark mode toggle *)

Section Toggle.

Lemma classList_toggle_elem (token : str) (cl : gset str) :
  token ∈ classList_toggle token cl ↔ token ∉ cl.
Proof.
  unfold classList_toggle. destruct (decide (token ∈ cl)) as [H|H].
  - rewrite elem_of_difference, not_elem_of_singleton. tauto.
  - rewrite elem_of_union, elem_of_singleton. tauto.
Qed.

Lemma classList_toggle_twice (token : str) (cl : gset str) :
  classList_toggle token (classList_toggle token cl) = cl.
Proof.
  unfold classList_toggle. destruct (decide (token ∈ cl)) as [H|H].
  - rewrite decide_False
      by (rewrite elem_of_difference, not_elem_of_singleton; tauto).
    apply set_eq. intros x.
    rewrite elem_of_union, elem_of_difference, elem_of_singleton.
    destruct (decide (x = token)) as [->|]; tauto.
  - rewrite decide_True by (rewrite elem_of_union, elem_of_singleton; tauto).
    apply set_eq. intros x.
    rewrite elem_of_difference, elem_of_union, elem_of_singleton.
    destruct (decide (x = token)) as [->|]; tauto.
Qed.

(** A click keeps the flag and the class as they were to each other. *)
Lemma toggleDarkMode_sync (s : DarkMode) :
  in_sync (toggleDarkMode s) ↔ in_sync s.
Proof.
  unfold in_sync, toggleDarkMode. cbn [isDark classList].
  rewrite classList_toggle_elem.
  destruct (isDark s), (decide (u "dark" ∈ classList s)); simpl;
    intuition congruence.
Qed.

Lemma toggles_sync (n : nat) (s : DarkMode) :
  in_sync (Nat.iter n toggleDarkMode s) ↔ in_sync s.
Proof.
  induction n as [|n IH]; [done|].
  by rewrite Nat.iter_succ, toggleDarkMode_sync.
Qed.
End Toggle.

(** X14: after the component is mounted and after any number of clicks, the
    flag [isDark] and the class [dark] of the document agree exactly when,
    at mounting, the class was not yet there or the preference found was
    dark: mounting never takes the class away, and a click only flips both,
    so a class that is there against the preference stays out of step. *)
Theorem dark_mode_in_step (prefersDark : bool) (s : DarkMode) (n : nat) :
  in_sync (Nat.iter n toggleDarkMode (onMounted prefersDark s))
  ↔ (u "dark" ∉ classList s ∨ isDark (onMounted prefersDark s) = true).
Proof.
  rewrite toggles_sync. unfold in_sync, onMounted. cbn [isDark classList].
  destruct (match localStorage s !! appearance_key with
            | Some (c :: p) => bool_decide (c :: p = u "dark")
            | _ => bool_decide (appearance prefersDark = u "dark")
            end).
  - split; [auto|]. intros _. split; [|done].
    intros _. apply elem_of_union. right. by apply elem_of_singleton.
  - split.
    + intros [_ H]. left. intros Hin. by specialize (H Hin).
    + intros [H|H]; [|done]. split; [done | by intros ?].
Qed.

(** X15: two clicks bring the flag and the class list back to what they
    were, and leave the stored preference saying what the flag says; no
    other key of the storage is touched. *)
Theorem toggleDarkMode_twice (s : DarkMode) :
  let s2 := toggleDarkMode (toggleDarkMode s) in
  isDark s2 = isDark s
  ∧ classList s2 = classList s
  ∧ localStorage s2 !! appearance_key = Some (appearance (isDark s))
  ∧ ∀ k, k ≠ appearance_key → localStorage s2 !! k = localStorage s !! k.
Proof.
  cbv zeta. unfold toggleDarkMode. cbn [isDark classList localStorage].
  rewrite negb_involutive, classList_toggle_twice, lookup_insert_eq.
  repeat split. intros k Hk. by rewrite !lookup_insert_ne.
Qed.

(** X16: the preference a click stores is the one a later mounting finds:
    whatever the system prefers and whatever the flag and the class list
    are then, the flag after mounting is the flag the click left. *)
Theorem dark_mode_remembered (s : DarkMode) (prefersDark flag : bool)
  (cl : gset str) :
  isDark (onMounted prefersDark
            (mkDarkMode flag cl (localStorage (toggleDarkMode s))))
  = isDark (toggleDarkMode s).
Proof.
  unfold onMounted, toggleDarkMode. cbn [isDark classList localStorage].
  rewrite lookup_insert_eq. by destruct (isDark s).
Qed.
